(** * fooof.synth.gen: synthesis of power spectra

    A shallow embedding of [fooof/synth/gen.py].  Floating point numbers are
    read as real numbers (the level at which the specification speaks of
    frequencies, parameters and power values), numpy arrays as lists, Python
    exceptions as an error result, and the process-wide random source of
    [np.random.normal] as an explicit state threaded through the calls.

    The real numbers leave out the rounding of binary64.  Where a statement
    depends on it, as the bounds on the last frequency of [gen_freqs] do,
    the function is embedded a second time on binary64 numbers, in the
    module [Float64], and the statement is made there. *)

From Stdlib Require Import String Reals Lra Lia ZArith List Permutation Sorted.
From Stdlib Require Import Floats Uint63.
Import ListNotations.
Local Open Scope R_scope.

Set Implicit Arguments.
Set Warnings "-inexact-float".

(** ** Errors and results *)

(** The errors of the specification's taxonomy, and the exceptions of
    Python and numpy that the code can meet.  [gen.py] itself has no
    [raise]: every error comes out of something it calls. *)
Inductive error : Type :=
| InvalidParameterError
| InsufficientParametersError
| InvalidRangeError
| IndexError
| ValueError
| ZeroDivisionError
| OverflowError.

Inductive result (A : Type) : Type :=
| Ok (a : A)
| Err (e : error).

Arguments Ok {A} a.
Arguments Err {A} e.

Definition bind {A B : Type} (r : result A) (k : A -> result B) : result B :=
  match r with
  | Ok a => k a
  | Err e => Err e
  end.

Notation "x <- r ;; k" := (bind r (fun x => k))
  (at level 61, r at next level, right associativity).
Notation "' pat <- r ;; k" := (bind r (fun x => match x with pat => k end))
  (at level 61, pat pattern, r at next level, right associativity).

(** ** Vectors (1d arrays) *)

Definition vec : Type := list R.

(* np.zeros_like(xs) / one row of np.zeros([n, len(xs)]) *)
Definition zeros (n : nat) : vec := repeat 0 n.

(* a + b on two 1d arrays of the same length *)
Fixpoint vadd (a b : vec) : vec :=
  match a, b with
  | x :: a', y :: b' => (x + y) :: vadd a' b'
  | _, _ => []
  end.

(* np.power(10, v), in exact arithmetic: no rounding, and no underflow to
   0 for very negative exponents *)
Definition power10 (v : vec) : vec := map (Rpower 10) v.

(* the least integer not below x *)
Definition Rceil (x : R) : Z := (- Int_part (- x))%Z.

(* the values start, start + step, ..., n of them *)
Definition ramp (start step : R) (n : nat) : vec :=
  map (fun i => start + INR i * step) (seq 0 n).

(* np.arange(start, stop, step) in exact arithmetic:
   ceil((stop - start) / step) values start + i * step, none when that
   count is not positive; with a step of zero the division that gives the
   count raises.  The rounding of the count and of the steps is in
   Float64.arange. *)
Definition arange (start stop step : R) : result vec :=
  if Req_dec_T step 0 then Err ZeroDivisionError
  else Ok (ramp start step (Z.to_nat (Rceil ((stop - start) / step)))).

(** ** The random source *)

(** The state of numpy's global generator: the standard normal variates it
    is going to hand out, and how many were taken. *)
Record rng_state : Type := mk_rng {
  draws : nat -> R;
  taken : nat
}.

(* loc + scale * z for the next [size] standard normal variates z *)
Definition scaled_draws (loc scale : R) (size : nat) (st : rng_state) : vec :=
  map (fun i => loc + scale * draws st (taken st + i)%nat) (seq 0 size).

(* np.random.normal(loc, scale, size); a negative scale raises *)
Definition normal (loc scale : R) (size : nat) (st : rng_state)
  : result (vec * rng_state) :=
  if Rlt_dec scale 0 then Err ValueError
  else Ok (scaled_draws loc scale size st,
           mk_rng (draws st) (taken st + size)).

(** ** gen_freqs *)

Definition gen_freqs (freq_range : R * R) (freq_res : R) : result vec :=
  arange (fst freq_range) (snd freq_range + freq_res) freq_res.

(** ** gen_freqs on binary64 numbers *)

Module Float64.

(* ceil of a binary64 number as an integer; None for nan and infinities *)
Definition ceil (x : float) : option Z :=
  match Prim2SF x with
  | S754_zero _ => Some 0%Z
  | S754_finite s m e =>
      if (0 <=? e)%Z
      then Some (if s then (- (Z.pos m * 2 ^ e))%Z else (Z.pos m * 2 ^ e)%Z)
      else if s then Some (- (Z.pos m / 2 ^ (- e)))%Z
           else Some ((Z.pos m + 2 ^ (- e) - 1) / 2 ^ (- e))%Z
  | S754_infinity _ => None
  | S754_nan => None
  end.

(* an index as a binary64 number (exact below 2^53) *)
Definition of_nat (i : nat) : float :=
  PrimFloat.of_uint63 (Uint63.of_Z (Z.of_nat i)).

(* how numpy fills the array of arange: the first value is start, the
   second start + step, and the value of index i >= 2 is start + i * delta
   for delta = (start + step) - start *)
Definition fill (start step : float) (n : nat) : list float :=
  match n with
  | O => []
  | S O => [start]
  | S (S k) =>
      let second := (start + step)%float in
      let delta := (second - start)%float in
      start :: second
        :: map (fun i => (start + of_nat i * delta)%float) (seq 2 k)
  end.

(* np.arange(start, stop, step) on Python floats: the count is
   ceil((stop - start) / step) computed in binary64; a zero step raises in
   the division, a count that is nan or outside the range of a signed
   64-bit integer raises in the conversion; a count that is not positive
   gives the empty array.  Memory is not bounded here. *)
Definition arange (start stop step : float) : result (list float) :=
  if PrimFloat.eqb step 0%float then Err ZeroDivisionError
  else match ceil ((stop - start) / step)%float with
       | None =>
           if PrimFloat.eqb ((stop - start) / step)%float
                            ((stop - start) / step)%float
           then Err OverflowError else Err ValueError
       | Some n =>
           if (Z.leb (- 2 ^ 63)%Z n && Z.leb n (2 ^ 63)%Z)%bool
           then Ok (fill start step (Z.to_nat n))
           else Err OverflowError
       end.

Definition gen_freqs (freq_range : float * float) (freq_res : float)
  : result (list float) :=
  arange (fst freq_range) (snd freq_range + freq_res)%float freq_res.




End Float64.

(** ** The aperiodic and peak functions (fooof.core.funcs) *)

(** The two aperiodic forms are collaborators of this module: pure,
    elementwise functions of a frequency and the parameters.  They are
    taken as parameters of the development. *)
Class ApFuncs : Type := {
  (* 'fixed': frequency, offset, exponent *)
  expo_nk_function : R -> R -> R -> R;
  (* 'knee': frequency, offset, knee, exponent *)
  expo_function : R -> R -> R -> R -> R
}.

(** An aperiodic function as gen.py calls it: [f(xs, *params)]. *)
Definition ap_func : Type := vec -> list R -> result vec.

Section Funcs.
Context {AF : ApFuncs}.

(** Modelled from the spec: the 'fixed' aperiodic function of
    fooof.core.funcs, applied to the frequency vector and the unpacked
    parameters; a parameter count other than two is a malformed call. *)
Definition fixed_func : ap_func := fun xs params =>
  match params with
  | [offset; exponent] =>
      Ok (map (fun x => expo_nk_function x offset exponent) xs)
  | _ => Err InvalidParameterError
  end.

(** Modelled from the spec: the 'knee' aperiodic function of
    fooof.core.funcs, applied to the frequency vector and the unpacked
    parameters; a parameter count other than three is a malformed call. *)
Definition knee_func : ap_func := fun xs params =>
  match params with
  | [offset; knee; exponent] =>
      Ok (map (fun x => expo_function x offset knee exponent) xs)
  | _ => Err InvalidParameterError
  end.

(** Modelled from the spec: infer_ap_func of fooof.core.funcs, the mode
    name inferred from the parameter count (2 is fixed, 3 is knee, any other
    length is an error). *)
Definition infer_ap_func (aperiodic_params : list R) : result string :=
  match length aperiodic_params with
  | 2%nat => Ok "fixed"%string
  | 3%nat => Ok "knee"%string
  | _ => Err InvalidParameterError
  end.

(** Modelled from the spec: get_ap_func of fooof.core.funcs, the lookup
    from a mode name to the aperiodic function; an unknown mode tag is an
    error. *)
Definition get_ap_func (aperiodic_mode : string) : result ap_func :=
  if String.eqb aperiodic_mode "fixed" then Ok fixed_func
  else if String.eqb aperiodic_mode "knee" then Ok knee_func
  else Err InvalidParameterError.

(** Modelled from the spec: one Gaussian bump of gaussian_function at the
    frequency x, amplitude * exp(-(x - center)^2 / (2 * bandwidth^2)). *)
Definition gaussian (ctr amp wid x : R) : R :=
  amp * exp (- ((x - ctr) ^ 2) / (2 * wid ^ 2)).

(** Modelled from the spec: the loop of gaussian_function over the
    consecutive triples, one bump added to ys per triple. *)
Fixpoint gaussian_loop (xs : vec) (params : list R) (ys : vec)
  : result vec :=
  match params with
  | [] => Ok ys
  | ctr :: amp :: wid :: rest =>
      gaussian_loop xs rest (vadd ys (map (gaussian ctr amp wid) xs))
  | _ => Err InvalidParameterError
  end.

(** Modelled from the spec: gaussian_function of fooof.core.funcs, called
    as [gaussian_function(xs, *params)]: starting from zeros, the sum over
    every consecutive triple (center, amplitude, bandwidth) of
    amplitude * exp(-(x - center)^2 / (2 * bandwidth^2)); a parameter count
    that is not a multiple of three is an error. *)
Definition gaussian_function (xs : vec) (params : list R) : result vec :=
  gaussian_loop xs params (zeros (length xs)).

(** ** gen_aperiodic, gen_peaks, gen_power_vals *)

(* Python's [not aperiodic_mode] holds for None and for the empty string:
   only a non-empty mode name is kept *)
Definition given_mode (aperiodic_mode : option string) : option string :=
  match aperiodic_mode with
  | Some (String c s) => Some (String c s)
  | _ => None
  end.

Definition gen_aperiodic (xs : vec) (aperiodic_params : list R)
    (aperiodic_mode : option string) : result vec :=
  mode <- match given_mode aperiodic_mode with
          | Some m => Ok m
          | None => infer_ap_func aperiodic_params
          end ;;
  f <- get_ap_func mode ;;
  f xs aperiodic_params.

Definition gen_peaks (xs : vec) (gauss_params : list R) : result vec :=
  gaussian_function xs gauss_params.

Definition gen_power_vals (xs : vec) (aperiodic_params gauss_params : list R)
    (nlv : R) (st : rng_state) : result (vec * rng_state) :=
  aperiodic <- gen_aperiodic xs aperiodic_params None ;;
  peaks <- gen_peaks xs gauss_params ;;
  '(noise, st') <- normal 0 nlv (length xs) st ;;
  Ok (power10 (vadd (vadd aperiodic peaks) noise), st').

(** ** gen_power_spectrum *)

(** Peak parameters as a caller may give them: flat, or grouped into a list
    of lists. *)
Inductive gauss_input : Type :=
| FlatParams (params : list R)
| GroupedParams (groups : list (list R)).

(** Modelled from the spec: check_flat of fooof.core.utils, which flattens
    grouped peak parameters and leaves a flat list as it is. *)
Definition check_flat (gauss_params : gauss_input) : list R :=
  match gauss_params with
  | FlatParams params => params
  | GroupedParams groups => concat groups
  end.

Definition default_nlv : R := 0.005.
Definition default_freq_res : R := 0.5.

Definition or_default {A : Type} (arg : option A) (dflt : A) : A :=
  match arg with
  | Some a => a
  | None => dflt
  end.

Definition gen_power_spectrum (freq_range : R * R)
    (aperiodic_params : list R) (gauss_params : gauss_input)
    (nlv freq_res : option R) (st : rng_state)
  : result (vec * vec * rng_state) :=
  xs <- gen_freqs freq_range (or_default freq_res default_freq_res) ;;
  '(ys, st') <- gen_power_vals xs aperiodic_params (check_flat gauss_params)
                  (or_default nlv default_nlv) st ;;
  Ok (xs, ys, st').

(** ** The parameter record and its helpers *)

Definition triple : Type := (R * R * R)%type.

(** Modelled from the spec: SynParams of fooof.synth.params, the record of
    the parameters used for one spectrum. *)
Record SynParams : Type := mk_SynParams {
  aperiodic_params : list R;
  gaussian_params : list triple;
  nlv : R
}.

(** Modelled from the spec: group_three of fooof.core.utils, which groups a
    flat sequence into 3-tuples; a length that is not a multiple of three is
    an error. *)
Fixpoint group_three (params : list R) : result (list triple) :=
  match params with
  | [] => Ok []
  | ctr :: amp :: wid :: rest =>
      groups <- group_three rest ;;
      Ok ((ctr, amp, wid) :: groups)
  | _ => Err InvalidParameterError
  end.

Definition Rltb (x y : R) : bool := if Rlt_dec x y then true else false.
Definition Reqb (x y : R) : bool := if Req_dec_T x y then true else false.

(* Python's [<] on two 3-tuples: the first differing position decides *)
Definition triple_ltb (a b : triple) : bool :=
  let '(a1, a2, a3) := a in
  let '(b1, b2, b3) := b in
  if Reqb a1 b1
  then (if Reqb a2 b2 then Rltb a3 b3 else Rltb a2 b2)
  else Rltb a1 b1.

(* Python's sorted is stable and only asks [<]: an element goes in front of
   the first one that is not smaller than it *)
Fixpoint insert_sorted (t : triple) (l : list triple) : list triple :=
  match l with
  | [] => [t]
  | u :: l' => if triple_ltb u t then u :: insert_sorted t l'
               else t :: u :: l'
  end.

Definition sorted (l : list triple) : list triple :=
  fold_right insert_sorted [] l.

(* list.copy() *)
Definition copy {A : Type} (l : list A) : list A := map (fun a => a) l.

(* l[i] = v; an index out of range raises *)
Fixpoint set_item {A : Type} (l : list A) (i : nat) (v : A)
  : result (list A) :=
  match l, i with
  | [], _ => Err IndexError
  | _ :: l', O => Ok (v :: l')
  | a :: l', S i' => l'' <- set_item l' i' v ;; Ok (a :: l'')
  end.

(** ** Parameter sources and iterators *)

(** What a caller may pass for a parameter of a group of spectra. *)
Inductive param_source (A : Type) : Type :=
| Single (value : A)
| Sequence (items : list A)
| Generator (yield : nat -> option A).

Arguments Single {A} value.
Arguments Sequence {A} items.
Arguments Generator {A} yield.

(** An iterator and what is left of it: [yield k] of a generator is the
    item of its k-th resumption, None once it has returned. *)
Inductive iterator (A : Type) : Type :=
| RepeatIter (value : A) (times : nat)
| ListIter (items : list A)
| GenIter (yield : nat -> option A) (resumed : nat).

Arguments RepeatIter {A} value times.
Arguments ListIter {A} items.
Arguments GenIter {A} yield resumed.

(* next(it): the item and the advanced iterator, None for StopIteration *)
Definition next {A : Type} (it : iterator A) : option (A * iterator A) :=
  match it with
  | RepeatIter v O => None
  | RepeatIter v (S k) => Some (v, RepeatIter v k)
  | ListIter [] => None
  | ListIter (a :: l) => Some (a, ListIter l)
  | GenIter g k =>
      match g k with
      | Some a => Some (a, GenIter g (S k))
      | None => None
      end
  end.

(* the items an iterator yields in at most [pulls] calls of next *)
Fixpoint yields {A : Type} (pulls : nat) (it : iterator A) : list A :=
  match pulls with
  | O => []
  | S pulls' =>
      match next it with
      | Some (a, it') => a :: yields pulls' it'
      | None => []
      end
  end.

(** Modelled from the spec: check_iter of fooof.core.utils: an input that
    is no iterator is turned into one that repeats the same value [length]
    times, a finite sequence is consumed positionally, a generator is passed
    through. *)
Definition check_iter {A : Type} (obj : param_source A) (length : nat)
  : iterator A :=
  match obj with
  | Single v => RepeatIter v length
  | Sequence l => ListIter l
  | Generator g => GenIter g 0
  end.

(** ** gen_group_power_spectra *)

(* the for loop over zip(range(n_spectra), aperiodic_params, gauss_params,
   nlvs): zip asks each iterator in turn and stops, without an error, at the
   first one that is exhausted *)
Fixpoint synthesize (xs : vec) (inds : list nat)
    (ap_it gp_it : iterator (list R)) (nlv_it : iterator R)
    (ys : list vec) (syn_params : list (option SynParams))
    (st : rng_state)
  : result (list vec * list (option SynParams) * rng_state) :=
  match inds with
  | [] => Ok (ys, syn_params, st)
  | ind :: inds' =>
      match next ap_it with
      | None => Ok (ys, syn_params, st)
      | Some (bgp, ap_it') =>
      match next gp_it with
      | None => Ok (ys, syn_params, st)
      | Some (gp, gp_it') =>
      match next nlv_it with
      | None => Ok (ys, syn_params, st)
      | Some (nlv, nlv_it') =>
          groups <- group_three gp ;;
          syn_params' <- set_item syn_params ind
                           (Some (mk_SynParams (copy bgp) (sorted groups)
                                    nlv)) ;;
          '(row, st') <- gen_power_vals xs bgp gp nlv st ;;
          ys' <- set_item ys ind row ;;
          synthesize xs inds' ap_it' gp_it' nlv_it' ys' syn_params' st'
      end end end
  end.

Definition gen_group_power_spectra (n_spectra : nat) (freq_range : R * R)
    (aperiodic_params gauss_params : param_source (list R))
    (nlvs : option (param_source R)) (freq_res : option R)
    (st : rng_state)
  : result (vec * list vec * list (option SynParams) * rng_state) :=
  xs <- gen_freqs freq_range (or_default freq_res default_freq_res) ;;
  let ys := repeat (zeros (length xs)) n_spectra in
  let syn_params := repeat None n_spectra in
  let ap_it := check_iter aperiodic_params n_spectra in
  let gp_it := check_iter gauss_params n_spectra in
  let nlv_it := check_iter (or_default nlvs (Single default_nlv)) n_spectra in
  '(ys', syn_params', st') <-
     synthesize xs (seq 0 n_spectra) ap_it gp_it nlv_it ys syn_params st ;;
  Ok (xs, ys', syn_params', st').

End Funcs.

(** ** Reference points for the statements *)

(* the flat list of a list of triples *)
Definition ungroup (groups : list triple) : list R :=
  flat_map (fun t : triple => let '(ctr, amp, wid) := t in [ctr; amp; wid])
           groups.

(* the value of all the bumps at one frequency *)
Definition peak_sum (groups : list triple) (x : R) : R :=
  fold_right (fun (t : triple) s =>
                let '(ctr, amp, wid) := t in gaussian ctr amp wid x + s)
             0 groups.

(* the power values of a call, the random source left aside *)
Definition power_values (r : result (vec * rng_state)) : result vec :=
  '(ys, _) <- r ;; Ok ys.

(* the order of Python on 3-tuples, as a proposition *)
Definition triple_lt (a b : triple) : Prop :=
  let '(a1, a2, a3) := a in
  let '(b1, b2, b3) := b in
  a1 < b1 \/ (a1 = b1 /\ (a2 < b2 \/ (a2 = b2 /\ a3 < b3))).

(* a is not after b *)
Definition triple_le (a b : triple) : Prop := ~ triple_lt b a.

(* parameters gen_power_vals and group_three accept *)
Definition well_formed (ap_params gauss_params : list R) (noise_level : R)
  : Prop :=
  (length ap_params = 2%nat \/ length ap_params = 3%nat) /\
  (length gauss_params mod 3 = 0)%nat /\
  0 <= noise_level.

(* entry [rec] of syn_params and row [row] of ys are those of a spectrum
   generated from the aperiodic parameters a, the peak parameters g and the
   noise level l *)
Definition generated {AF : ApFuncs} (xs : vec) (a g : list R) (l : R)
    (rec : option (option SynParams)) (row : option vec) : Prop :=
  exists groups r st,
    group_three g = Ok groups /\
    rec = Some (Some (mk_SynParams a (sorted groups) l)) /\
    row = Some r /\ length r = length xs /\
    power_values (gen_power_vals xs a g l st) = Ok r.

(* how many spectra the loop of gen_group_power_spectra generates: as many
   as the shortest of the three sources yields, n_spectra at most *)
Definition completed (n_spectra : nat) (ap_it gp_it : iterator (list R))
    (nlv_it : iterator R) : nat :=
  Nat.min (length (yields n_spectra ap_it))
    (Nat.min (length (yields n_spectra gp_it))
       (length (yields n_spectra nlv_it))).

(* a generator that yields one item and then returns *)
Definition one_shot {A : Type} (a : A) : param_source A :=
  Generator (fun k => match k with O => Some a | S _ => None end).

(* the first component of a triple: the center frequency *)
Definition center (t : triple) : R := fst (fst t).

(** The aperiodic forms of fooof.core.funcs, as an instance to run the
    statements on. *)
Definition log_funcs : ApFuncs := {|
  expo_nk_function := fun x offset exponent =>
    offset - ln (Rpower x exponent) / ln 10;
  expo_function := fun x offset knee exponent =>
    offset - ln (knee + Rpower x exponent) / ln 10
|}.

(* a random source for the examples: every variate is [z] *)
Definition const_rng (z : R) : rng_state := mk_rng (fun _ => z) 0.


(* the random source after k more variates were taken *)
Definition advance (st : rng_state) (k : nat) : rng_state :=
  mk_rng (draws st) (taken st + k).

(* two flat peak parameter lists made of the same triples, in any order *)
Definition same_peaks (p q : list R) : Prop :=
  exists gp gq,
    group_three p = Ok gp /\ group_three q = Ok gq /\ Permutation gp gq.

(** * Properties *)

(** ** The helpers on small inputs *)

Example group_three_two_peaks :
  group_three [20; 0.5; 1; 10; 1; 1] = Ok [(20, 0.5, 1); (10, 1, 1)].
Proof. reflexivity. Qed.

Example group_three_leftover :
  group_three [20; 0.5; 1; 10] = Err InvalidParameterError.
Proof. reflexivity. Qed.

Example check_flat_grouped :
  check_flat (GroupedParams [[10; 1; 1]; [20; 0.5; 1]])
  = [10; 1; 1; 20; 0.5; 1].
Proof. reflexivity. Qed.

Example infer_ap_func_lengths :
  infer_ap_func [0; 2] = Ok "fixed"%string /\
  infer_ap_func [0; 1; 2] = Ok "knee"%string /\
  infer_ap_func [0] = Err InvalidParameterError.
Proof. repeat split. Qed.

Example gen_peaks_leftover :
  gen_peaks [1; 2] [10; 1] = Err InvalidParameterError.
Proof. reflexivity. Qed.

Example yields_single_twice :
  yields 3 (check_iter (Single 5) 2) = [5; 5].
Proof. reflexivity. Qed.

Example yields_one_shot :
  yields 3 (check_iter (one_shot [0; 2]) 3) = [[0; 2]].
Proof. reflexivity. Qed.

Example set_item_out_of_range :
  set_item [1; 2] 2 3 = Err IndexError.
Proof. reflexivity. Qed.

Example normal_negative_scale (st : rng_state) :
  normal 0 (-1) 3 st = Err ValueError.
Proof. unfold normal. destruct (Rlt_dec (-1) 0); [reflexivity | lra]. Qed.

(** ** Results *)

Lemma bind_Ok_inv {A B : Type} (r : result A) (k : A -> result B) (b : B) :
  bind r k = Ok b -> exists a, r = Ok a /\ k a = Ok b.
Proof. destruct r as [a|e]; simpl; intros H; [eauto | discriminate]. Qed.

(** ** Ceiling and arange *)

Lemma Rceil_bounds (x : R) : IZR (Rceil x) - 1 < x <= IZR (Rceil x).
Proof.
  unfold Rceil. rewrite opp_IZR.
  destruct (base_Int_part (- x)) as [Hle Hgt]. split; lra.
Qed.

Lemma Rceil_unique (x : R) (z : Z) : IZR z - 1 < x <= IZR z -> Rceil x = z.
Proof.
  intros [Hlo Hhi]. destruct (Rceil_bounds x) as [Clo Chi].
  assert (H1 : (z < Rceil x + 1)%Z).
  { apply lt_IZR. rewrite plus_IZR. lra. }
  assert (H2 : (Rceil x < z + 1)%Z).
  { apply lt_IZR. rewrite plus_IZR. lra. }
  lia.
Qed.

Lemma Rceil_IZR (z : Z) : Rceil (IZR z) = z.
Proof. apply Rceil_unique. lra. Qed.

Lemma arange_ok (start stop step : R) :
  step <> 0 ->
  arange start stop step
  = Ok (ramp start step (Z.to_nat (Rceil ((stop - start) / step)))).
Proof.
  intros Hstep. unfold arange.
  destruct (Req_dec_T step 0) as [E|_]; [contradiction | reflexivity].
Qed.

Lemma ramp_length (start step : R) (n : nat) : length (ramp start step n) = n.
Proof. unfold ramp. now rewrite length_map, length_seq. Qed.

Lemma nth_map_lt (A : Type) (f : A -> R) (l : list A) (i : nat) (d : A) :
  (i < length l)%nat -> nth i (map f l) 0 = f (nth i l d).
Proof.
  intros Hi. rewrite (nth_indep _ 0 (f d)) by now rewrite length_map.
  apply map_nth.
Qed.

Lemma ramp_nth (start step : R) (n i : nat) :
  (i < n)%nat -> nth i (ramp start step n) 0 = start + INR i * step.
Proof.
  intros Hi. unfold ramp.
  rewrite (nth_map_lt _ _ O) by now rewrite length_seq.
  now rewrite seq_nth.
Qed.

Lemma steps_sorted (start step : R) (n a : nat) :
  0 < step ->
  StronglySorted Rlt (map (fun i => start + INR i * step) (seq a n)).
Proof.
  intros Hstep. revert a.
  induction n as [|n IH]; intros a; simpl; constructor.
  - apply IH.
  - apply Forall_forall. intros y Hy.
    apply in_map_iff in Hy. destruct Hy as [i [<- Hi]].
    apply in_seq in Hi.
    assert (INR a < INR i) by (apply lt_INR; lia). nra.
Qed.

Lemma ramp_last (start step : R) (n : nat) (d : R) :
  last (ramp start step (S n)) d = start + INR n * step.
Proof. unfold ramp. rewrite seq_S, map_app. simpl. apply last_last. Qed.

Example Rceil_half : Rceil 2.5 = 3%Z.
Proof. apply Rceil_unique. lra. Qed.

Example gen_freqs_two : gen_freqs (1, 2) 1 = Ok (ramp 1 1 2).
Proof.
  unfold gen_freqs. simpl fst. simpl snd. rewrite arange_ok by lra.
  replace ((2 + 1 - 1) / 1) with (IZR 2) by lra.
  now rewrite Rceil_IZR.
Qed.

Example gen_freqs_zero_resolution : gen_freqs (1, 2) 0 = Err ZeroDivisionError.
Proof.
  unfold gen_freqs, arange.
  destruct (Req_dec_T 0 0) as [_|H]; [reflexivity | now contradiction H].
Qed.

(** The number of frequencies: one more than the steps it takes to reach
    the upper end of the range. *)
Lemma gen_freqs_count (lo hi r : R) :
  lo < hi -> 0 < r ->
  exists c : Z,
    (1 < c)%Z /\ Rceil ((hi + r - lo) / r) = c /\
    IZR c - 1 < (hi + r - lo) / r <= IZR c.
Proof.
  intros Hlt Hr. exists (Rceil ((hi + r - lo) / r)).
  split; [|split; [reflexivity | apply Rceil_bounds]].
  apply lt_IZR.
  destruct (Rceil_bounds ((hi + r - lo) / r)) as [_ Hhi].
  assert (1 < (hi + r - lo) / r); [|lra].
  apply Rmult_lt_reg_r with r; [assumption|].
  replace ((hi + r - lo) / r * r) with (hi + r - lo) by (field; lra). lra.
Qed.

Lemma gen_freqs_ok (freq_range : R * R) (freq_res : R) :
  freq_res <> 0 -> exists xs, gen_freqs freq_range freq_res = Ok xs.
Proof. intros H. eexists. unfold gen_freqs. now apply arange_ok. Qed.

(** In exact arithmetic, for a range [lo, hi] with lo < hi and a resolution
    r > 0, the vector of gen_freqs is strictly increasing, starts at lo, and
    ends at a value that is at least hi and below hi + r.  The rounding of
    binary64 breaks the two bounds and the strict increase: see
    [gen_freqs_binary64_breaks_bounds]. *)
Lemma gen_freqs_exact_increasing_from_lo_to_hi (lo hi r : R) :
  lo < hi -> 0 < r ->
  exists xs,
    gen_freqs (lo, hi) r = Ok xs /\
    StronglySorted Rlt xs /\
    hd_error xs = Some lo /\
    hi <= last xs lo < hi + r.
Proof.
  intros Hlt Hr.
  destruct (gen_freqs_count Hlt Hr) as [c [Hc [Hceil [Hlo Hhi]]]].
  eexists. split.
  { unfold gen_freqs. simpl fst. simpl snd.
    rewrite arange_ok, Hceil by lra. reflexivity. }
  split; [apply steps_sorted; assumption|].
  destruct (Z.to_nat c) as [|n] eqn:En; [lia|].
  assert (HIn : INR n = IZR c - 1).
  { replace c with (Z.of_nat (S n)) by lia.
    rewrite <- INR_IZR_INZ, S_INR. lra. }
  split.
  - simpl. f_equal. ring.
  - rewrite ramp_last, HIn.
    assert (Hy : (hi + r - lo) / r * r = hi + r - lo) by (field; lra).
    split; nra.
Qed.

(** ** gen_freqs on binary64 numbers *)


Lemma float64_fill_nil (start step : float) (n : nat) :
  Float64.fill start step n = [] -> n = O.
Proof. destruct n as [|[|k]]; [reflexivity | discriminate | discriminate]. Qed.








(** ** Lists in steps of three *)

Lemma list_ind3 (A : Type) (P : list A -> Prop) :
  P [] -> (forall a, P [a]) -> (forall a b, P [a; b]) ->
  (forall a b c l, P l -> P (a :: b :: c :: l)) ->
  forall l, P l.
Proof.
  intros H0 H1 H2 H3.
  fix IH 1. intros [|a [|b [|c l]]].
  - exact H0.
  - apply H1.
  - apply H2.
  - apply H3, IH.
Qed.

Lemma group_three_ungroup (groups : list triple) :
  group_three (ungroup groups) = Ok groups.
Proof.
  induction groups as [|[[c a] w] g IH]; [reflexivity|].
  change (ungroup ((c, a, w) :: g)) with (c :: a :: w :: ungroup g).
  simpl. now rewrite IH.
Qed.

Lemma group_three_flat (params : list R) (groups : list triple) :
  group_three params = Ok groups -> params = ungroup groups.
Proof.
  revert groups. induction params as [| |a b|a b c l IH] using list_ind3;
    intros groups H; simpl in H; try discriminate.
  - now inversion H.
  - apply bind_Ok_inv in H. destruct H as [g [Hg H]].
    inversion H; subst. simpl. f_equal. f_equal. f_equal. now apply IH.
Qed.

Lemma group_three_total (params : list R) :
  (length params mod 3 = 0)%nat -> exists groups, group_three params = Ok groups.
Proof.
  induction params as [| |a b|a b c l IH] using list_ind3; intros H.
  - now exists [].
  - discriminate.
  - discriminate.
  - assert (Hl : (length l mod 3 = 0)%nat).
    { simpl length in H.
      replace (S (S (S (length l)))) with (length l + 1 * 3)%nat in H by lia.
      now rewrite Nat.Div0.mod_add in H. }
    destruct (IH Hl) as [g Hg].
    exists ((a, b, c) :: g). simpl. now rewrite Hg.
Qed.

Lemma ungroup_length (groups : list triple) :
  length (ungroup groups) = (3 * length groups)%nat.
Proof.
  induction groups as [|[[c a] w] g IH]; [reflexivity|].
  change (ungroup ((c, a, w) :: g)) with (c :: a :: w :: ungroup g).
  simpl length. rewrite IH. lia.
Qed.

Lemma ungroup_app (g h : list triple) :
  ungroup (g ++ h) = ungroup g ++ ungroup h.
Proof. unfold ungroup. apply flat_map_app. Qed.

(** ** Vectors *)

Lemma vadd_map (A : Type) (f g : A -> R) (l : list A) :
  vadd (map f l) (map g l) = map (fun a => f a + g a) l.
Proof. induction l as [|a l IH]; simpl; [reflexivity | now rewrite IH]. Qed.

Lemma zeros_map (A : Type) (l : list A) :
  zeros (length l) = map (fun _ => 0) l.
Proof.
  unfold zeros. induction l as [|a l IH]; simpl; [reflexivity | now f_equal].
Qed.

Lemma vadd_length (a b : vec) :
  length a = length b -> length (vadd a b) = length a.
Proof.
  revert b. induction a as [|x a IH]; intros [|y b] H; simpl in *;
    try reflexivity; try discriminate.
  f_equal. apply IH. now inversion H.
Qed.

Lemma vadd_nth (a b : vec) (i : nat) :
  length a = length b -> (i < length a)%nat ->
  nth i (vadd a b) 0 = nth i a 0 + nth i b 0.
Proof.
  revert b i. induction a as [|x a IH]; intros [|y b] i H Hi; simpl in *;
    try lia; try discriminate.
  destruct i as [|i]; [reflexivity|]. apply IH; [now inversion H | lia].
Qed.

(** ** Peaks: the loop adds up the bumps *)

Lemma peak_sum_cons (c a w : R) (g : list triple) (x : R) :
  peak_sum ((c, a, w) :: g) x = gaussian c a w x + peak_sum g x.
Proof. reflexivity. Qed.

Lemma peak_sum_app (g h : list triple) (x : R) :
  peak_sum (g ++ h) x = peak_sum g x + peak_sum h x.
Proof.
  induction g as [|[[c a] w] g IH].
  - simpl app. change (peak_sum [] x) with 0. ring.
  - simpl app. rewrite !peak_sum_cons, IH. ring.
Qed.

Lemma peak_sum_perm (g h : list triple) (x : R) :
  Permutation g h -> peak_sum g x = peak_sum h x.
Proof.
  induction 1
    as [|[[c a] w] g h _ IH|[[c a] w] [[c' a'] w'] g|g h k _ IH1 _ IH2].
  - reflexivity.
  - now rewrite !peak_sum_cons, IH.
  - rewrite !peak_sum_cons. ring.
  - congruence.
Qed.

Lemma gaussian_loop_ungroup (xs : vec) (groups : list triple) (f : R -> R) :
  gaussian_loop xs (ungroup groups) (map f xs)
  = Ok (map (fun x => f x + peak_sum groups x) xs).
Proof.
  revert f. induction groups as [|[[c a] w] g IH]; intros f.
  - simpl. f_equal. apply map_ext. intros x.
    change (peak_sum [] x) with 0. ring.
  - change (ungroup ((c, a, w) :: g)) with (c :: a :: w :: ungroup g).
    simpl gaussian_loop. rewrite vadd_map, IH. f_equal.
    apply map_ext. intros x. rewrite peak_sum_cons. ring.
Qed.

Lemma gaussian_function_ungroup (xs : vec) (groups : list triple) :
  gaussian_function xs (ungroup groups) = Ok (map (peak_sum groups) xs).
Proof.
  unfold gaussian_function. rewrite zeros_map, gaussian_loop_ungroup.
  f_equal. apply map_ext. intros x. ring.
Qed.

Lemma gen_peaks_grouped (xs : vec) (params : list R) (groups : list triple) :
  group_three params = Ok groups ->
  gen_peaks xs params = Ok (map (peak_sum groups) xs).
Proof.
  intros H. apply group_three_flat in H. subst params.
  apply gaussian_function_ungroup.
Qed.

(** C8. For flat peak parameter lists A and B whose lengths are multiples
    of three, gen_peaks of A ++ B is the elementwise sum of gen_peaks of A
    and of B; with no parameters gen_peaks is the zero vector of the length
    of xs. *)
Theorem gen_peaks_additive (xs : vec) (A B : list R) :
  (length A mod 3 = 0)%nat -> (length B mod 3 = 0)%nat ->
  (exists pa pb,
     gen_peaks xs A = Ok pa /\ gen_peaks xs B = Ok pb /\
     gen_peaks xs (A ++ B) = Ok (vadd pa pb)) /\
  gen_peaks xs [] = Ok (zeros (length xs)).
Proof.
  intros HA HB. split; [|reflexivity].
  destruct (group_three_total A HA) as [ga Hga].
  destruct (group_three_total B HB) as [gb Hgb].
  exists (map (peak_sum ga) xs), (map (peak_sum gb) xs).
  split; [now apply gen_peaks_grouped|].
  split; [now apply gen_peaks_grouped|].
  apply group_three_flat in Hga, Hgb. subst A B.
  rewrite <- ungroup_app. unfold gen_peaks.
  rewrite gaussian_function_ungroup, vadd_map. apply f_equal.
  apply map_ext. intros x. apply peak_sum_app.
Qed.

Lemma gen_peaks_additive_witness :
  (exists pa pb,
     gen_peaks [8; 10; 12] [10; 1; 1] = Ok pa /\
     gen_peaks [8; 10; 12] [20; 0.5; 1] = Ok pb /\
     gen_peaks [8; 10; 12] ([10; 1; 1] ++ [20; 0.5; 1])
     = Ok (vadd pa pb)) /\
  gen_peaks [8; 10; 12] [] = Ok (zeros (length [8; 10; 12])).
Proof.
  apply (@gen_peaks_additive [8; 10; 12] [10; 1; 1] [20; 0.5; 1]);
    reflexivity.
Defined.

(** ** gen_aperiodic *)

Lemma gen_aperiodic_fixed (AF : ApFuncs) (xs : vec) (offset exponent : R) :
  gen_aperiodic xs [offset; exponent] None
  = Ok (map (fun x => expo_nk_function x offset exponent) xs).
Proof. reflexivity. Qed.

Lemma gen_aperiodic_knee (AF : ApFuncs) (xs : vec) (offset knee exponent : R) :
  gen_aperiodic xs [offset; knee; exponent] None
  = Ok (map (fun x => expo_function x offset knee exponent) xs).
Proof. reflexivity. Qed.

Lemma gen_aperiodic_valid (AF : ApFuncs) (xs : vec) (params : list R) :
  length params = 2%nat \/ length params = 3%nat ->
  exists f, gen_aperiodic xs params None = Ok (map f xs).
Proof.
  intros [H|H].
  - destruct params as [|a [|b [|c l]]]; try discriminate.
    eexists. apply gen_aperiodic_fixed.
  - destruct params as [|a [|b [|c [|d l]]]]; try discriminate.
    eexists. apply gen_aperiodic_knee.
Qed.

(** C7. Without an explicit mode, gen_aperiodic calls the fixed function on
    a parameter set of two elements and the knee function on one of three,
    each on the frequencies and the unpacked parameters; any other length
    is an InvalidParameterError. *)
Theorem gen_aperiodic_infers_mode (AF : ApFuncs) (xs : vec) (params : list R) :
  (length params = 2%nat ->
   infer_ap_func params = Ok "fixed"%string /\
   gen_aperiodic xs params None = fixed_func xs params /\
   exists offset exponent,
     params = [offset; exponent] /\
     gen_aperiodic xs params None
     = Ok (map (fun x => expo_nk_function x offset exponent) xs)) /\
  (length params = 3%nat ->
   infer_ap_func params = Ok "knee"%string /\
   gen_aperiodic xs params None = knee_func xs params /\
   exists offset knee exponent,
     params = [offset; knee; exponent] /\
     gen_aperiodic xs params None
     = Ok (map (fun x => expo_function x offset knee exponent) xs)) /\
  (length params <> 2%nat -> length params <> 3%nat ->
   gen_aperiodic xs params None = Err InvalidParameterError).
Proof.
  split; [|split].
  - intros H. destruct params as [|a [|b [|c l]]]; try discriminate.
    repeat split. exists a, b. split; reflexivity.
  - intros H. destruct params as [|a [|b [|c [|d l]]]]; try discriminate.
    repeat split. exists a, b, c. split; reflexivity.
  - intros H2 H3. unfold gen_aperiodic, infer_ap_func. simpl given_mode.
    destruct params as [|a [|b [|c [|d l]]]]; simpl in *;
      try reflexivity; contradiction.
Qed.

Lemma gen_aperiodic_infers_mode_witness :
  gen_aperiodic (AF := log_funcs) [1; 2] [0; 2] None
  = fixed_func (AF := log_funcs) [1; 2] [0; 2] /\
  gen_aperiodic (AF := log_funcs) [1; 2] [0; 1; 2] None
  = knee_func (AF := log_funcs) [1; 2] [0; 1; 2] /\
  gen_aperiodic (AF := log_funcs) [1; 2] [0] None
  = Err InvalidParameterError.
Proof.
  split; [|split].
  - apply (proj1 (@gen_aperiodic_infers_mode log_funcs [1; 2] [0; 2]));
      reflexivity.
  - apply (proj1 (proj2 (@gen_aperiodic_infers_mode log_funcs [1; 2]
                           [0; 1; 2]))); reflexivity.
  - apply (proj2 (proj2 (@gen_aperiodic_infers_mode log_funcs [1; 2] [0])));
      simpl; lia.
Defined.

(** ** gen_power_vals *)

Lemma normal_ok (loc scale : R) (size : nat) (st : rng_state) :
  0 <= scale ->
  normal loc scale size st
  = Ok (scaled_draws loc scale size st,
        mk_rng (draws st) (taken st + size)).
Proof.
  intros H. unfold normal. destruct (Rlt_dec scale 0); [lra | reflexivity].
Qed.

Lemma scaled_draws_length (loc scale : R) (size : nat) (st : rng_state) :
  length (scaled_draws loc scale size st) = size.
Proof. unfold scaled_draws. now rewrite length_map, length_seq. Qed.

Lemma scaled_draws_nth (loc scale : R) (size : nat) (st : rng_state)
    (i : nat) :
  (i < size)%nat ->
  nth i (scaled_draws loc scale size st) 0
  = loc + scale * draws st (taken st + i).
Proof.
  intros Hi. unfold scaled_draws.
  rewrite (nth_map_lt _ _ O) by now rewrite length_seq.
  now rewrite seq_nth.
Qed.

Lemma power10_positive (v : vec) : Forall (fun y => 0 < y) (power10 v).
Proof.
  unfold power10. apply Forall_forall. intros y Hy.
  apply in_map_iff in Hy. destruct Hy as [x [<- _]].
  unfold Rpower. apply exp_pos.
Qed.

(** What gen_power_vals returns on well-formed parameters. *)
Lemma gen_power_vals_valid (AF : ApFuncs) (xs : vec)
    (ap_params gauss_params : list R) (noise_level : R) (st : rng_state) :
  well_formed ap_params gauss_params noise_level ->
  exists aperiodic peaks,
    gen_aperiodic xs ap_params None = Ok aperiodic /\
    gen_peaks xs gauss_params = Ok peaks /\
    length aperiodic = length xs /\ length peaks = length xs /\
    gen_power_vals xs ap_params gauss_params noise_level st
    = Ok (power10 (vadd (vadd aperiodic peaks)
                     (scaled_draws 0 noise_level (length xs) st)),
          mk_rng (draws st) (taken st + length xs)).
Proof.
  intros [Hap [Hgp Hnl]].
  destruct (gen_aperiodic_valid AF xs ap_params Hap) as [f Hf].
  destruct (group_three_total gauss_params Hgp) as [g Hg].
  exists (map f xs), (map (peak_sum g) xs).
  pose proof (gen_peaks_grouped xs gauss_params Hg) as Hpk.
  repeat split; try assumption; try apply length_map.
  unfold gen_power_vals. rewrite Hf, Hpk. cbn [bind].
  now rewrite normal_ok.
Qed.

Lemma gen_power_vals_ok (AF : ApFuncs) (xs : vec)
    (ap_params gauss_params : list R) (noise_level : R) (st : rng_state) :
  well_formed ap_params gauss_params noise_level ->
  exists row st',
    gen_power_vals xs ap_params gauss_params noise_level st = Ok (row, st') /\
    length row = length xs /\ Forall (fun y => 0 < y) row.
Proof.
  intros Hwf.
  destruct (gen_power_vals_valid AF xs st Hwf)
    as [ap [pk [_ [_ [La [Lp Hv]]]]]].
  eexists. eexists. split; [exact Hv|].
  split; [|apply power10_positive].
  pose proof (scaled_draws_length 0 noise_level (length xs) st) as Ln.
  unfold power10. rewrite length_map.
  rewrite vadd_length; rewrite vadd_length; congruence.
Qed.

(* a concrete item is well formed: count the parameters, compare the noise
   level with 0 *)
Ltac well_formed_item :=
  split;
  [ first [left; reflexivity | right; reflexivity]
  | split; [reflexivity | simpl; try unfold default_nlv; lra] ].

(** C6. On a valid aperiodic parameter set, a flat peak parameter list and
    a noise level that is not negative, gen_power_vals returns a vector of
    the length of xs whose i-th element is 10 to the power of the sum of
    the i-th aperiodic value, the i-th peak value and the i-th noise value,
    the noise being 0 plus the noise level times the i-th variate drawn
    from the random source; every element is non-negative. *)
Theorem gen_power_vals_formula (AF : ApFuncs) (xs : vec)
    (ap_params gauss_params : list R) (noise_level : R) (st : rng_state) :
  length ap_params = 2%nat \/ length ap_params = 3%nat ->
  (length gauss_params mod 3 = 0)%nat ->
  0 <= noise_level ->
  exists aperiodic peaks noise ys st',
    gen_aperiodic xs ap_params None = Ok aperiodic /\
    gen_peaks xs gauss_params = Ok peaks /\
    normal 0 noise_level (length xs) st = Ok (noise, st') /\
    gen_power_vals xs ap_params gauss_params noise_level st = Ok (ys, st') /\
    length ys = length xs /\
    forall i, (i < length xs)%nat ->
      nth i noise 0 = 0 + noise_level * draws st (taken st + i) /\
      nth i ys 0
      = Rpower 10 (nth i aperiodic 0 + nth i peaks 0 + nth i noise 0) /\
      0 <= nth i ys 0.
Proof.
  intros Hap Hgp Hnl.
  destruct (gen_power_vals_valid AF xs st (conj Hap (conj Hgp Hnl)))
    as [ap [pk [Ha [Hp [La [Lp Hv]]]]]].
  exists ap, pk. eexists. eexists. eexists.
  split; [exact Ha|]. split; [exact Hp|].
  split; [now apply normal_ok|]. split; [exact Hv|].
  pose proof (scaled_draws_length 0 noise_level (length xs) st) as Ln.
  assert (Lsum : length (vadd (vadd ap pk)
                           (scaled_draws 0 noise_level (length xs) st))
                 = length xs).
  { rewrite vadd_length; rewrite vadd_length; congruence. }
  split; [unfold power10; now rewrite length_map|].
  intros i Hi.
  split; [now apply scaled_draws_nth|].
  assert (Hnth : nth i (power10 (vadd (vadd ap pk)
                   (scaled_draws 0 noise_level (length xs) st))) 0
                 = Rpower 10 (nth i ap 0 + nth i pk 0
                     + nth i (scaled_draws 0 noise_level (length xs) st) 0)).
  { unfold power10. rewrite (nth_map_lt _ _ 0) by lia. f_equal.
    rewrite vadd_nth; [|rewrite vadd_length; congruence
                       |rewrite vadd_length; congruence].
    now rewrite vadd_nth by congruence. }
  split; [exact Hnth|].
  rewrite Hnth. unfold Rpower. left. apply exp_pos.
Qed.

Lemma gen_power_vals_formula_witness :
  exists aperiodic peaks noise ys st',
    gen_aperiodic (AF := log_funcs) [1; 2] [0; 2] None = Ok aperiodic /\
    gen_peaks [1; 2] [10; 1; 1] = Ok peaks /\
    normal 0 0.005 (length [1; 2]) (const_rng 1) = Ok (noise, st') /\
    gen_power_vals (AF := log_funcs) [1; 2] [0; 2] [10; 1; 1] 0.005
      (const_rng 1) = Ok (ys, st') /\
    length ys = length [1; 2] /\
    forall i, (i < length [1; 2]%R)%nat ->
      nth i noise 0
      = 0 + 0.005 * draws (const_rng 1) (taken (const_rng 1) + i) /\
      nth i ys 0
      = Rpower 10 (nth i aperiodic 0 + nth i peaks 0 + nth i noise 0) /\
      0 <= nth i ys 0.
Proof.
  apply (@gen_power_vals_formula log_funcs [1; 2] [0; 2] [10; 1; 1] 0.005
           (const_rng 1)).
  - left. reflexivity.
  - reflexivity.
  - lra.
Defined.

(** C9. With a noise level of 0 the power values of gen_power_vals do not
    depend on the random source: two calls on the same frequencies,
    aperiodic parameters and peak parameters return the same vector (or
    fail alike). *)
Theorem gen_power_vals_deterministic (AF : ApFuncs) (xs : vec)
    (ap_params gauss_params : list R) (st1 st2 : rng_state) :
  power_values (gen_power_vals xs ap_params gauss_params 0 st1)
  = power_values (gen_power_vals xs ap_params gauss_params 0 st2).
Proof.
  unfold gen_power_vals.
  destruct (gen_aperiodic xs ap_params None) as [ap|e]; [|reflexivity].
  destruct (gen_peaks xs gauss_params) as [pk|e]; [|reflexivity].
  cbn [bind]. rewrite !normal_ok by lra. simpl.
  do 3 f_equal. unfold scaled_draws. apply map_ext. intros i. ring.
Qed.

(** ** sorted *)

Lemma triple_ltb_spec (a b : triple) : triple_ltb a b = true <-> triple_lt a b.
Proof.
  destruct a as [[a1 a2] a3], b as [[b1 b2] b3].
  unfold triple_ltb, triple_lt, Reqb, Rltb.
  destruct (Req_dec_T a1 b1), (Req_dec_T a2 b2),
    (Rlt_dec a1 b1), (Rlt_dec a2 b2), (Rlt_dec a3 b3);
    split; intros H; try reflexivity; try discriminate; try lra.
Qed.

Lemma triple_ltb_false (a b : triple) :
  triple_ltb a b = false <-> triple_le b a.
Proof.
  unfold triple_le. rewrite <- triple_ltb_spec.
  destruct (triple_ltb a b); split; intros H; try reflexivity;
    try discriminate; try (intros H'; discriminate).
  exfalso. now apply H.
Qed.

Lemma triple_lt_le (a b : triple) : triple_lt a b -> triple_le a b.
Proof.
  destruct a as [[a1 a2] a3], b as [[b1 b2] b3].
  unfold triple_le, triple_lt. lra.
Qed.

Lemma triple_le_trans (a b c : triple) :
  triple_le a b -> triple_le b c -> triple_le a c.
Proof.
  destruct a as [[a1 a2] a3], b as [[b1 b2] b3], c as [[c1 c2] c3].
  unfold triple_le, triple_lt. intros H1 H2 H3.
  destruct (Rtotal_order a1 b1) as [?|[?|?]];
    destruct (Rtotal_order b1 c1) as [?|[?|?]];
    destruct (Rtotal_order a2 b2) as [?|[?|?]];
    destruct (Rtotal_order b2 c2) as [?|[?|?]]; lra.
Qed.

Lemma triple_le_center (a b : triple) : triple_le a b -> center a <= center b.
Proof.
  destruct a as [[a1 a2] a3], b as [[b1 b2] b3].
  unfold triple_le, triple_lt, center. simpl. lra.
Qed.

Lemma insert_sorted_perm (t : triple) (l : list triple) :
  Permutation (insert_sorted t l) (t :: l).
Proof.
  induction l as [|u l IH]; simpl; [reflexivity|].
  destruct (triple_ltb u t); [|reflexivity].
  rewrite IH. apply perm_swap.
Qed.

Lemma sorted_perm (l : list triple) : Permutation (sorted l) l.
Proof.
  induction l as [|t l IH]; simpl; [reflexivity|].
  rewrite insert_sorted_perm. now constructor.
Qed.

Lemma insert_sorted_hd (t u : triple) (l : list triple) :
  triple_le u t -> HdRel triple_le u l ->
  HdRel triple_le u (insert_sorted t l).
Proof.
  intros Hut Hl. destruct l as [|v l]; simpl.
  - now constructor.
  - destruct (triple_ltb v t); constructor; [now inversion Hl | assumption].
Qed.

Lemma insert_sorted_ordered (t : triple) (l : list triple) :
  Sorted triple_le l -> Sorted triple_le (insert_sorted t l).
Proof.
  induction 1 as [|u l Hs IH Hhd]; simpl.
  - repeat constructor.
  - destruct (triple_ltb u t) eqn:E.
    + constructor; [assumption|].
      apply insert_sorted_hd; [|assumption].
      apply triple_lt_le. now apply triple_ltb_spec.
    + constructor; [now constructor|].
      constructor. now apply triple_ltb_false.
Qed.

Lemma sorted_ordered (l : list triple) : StronglySorted triple_le (sorted l).
Proof.
  apply Sorted_StronglySorted.
  - intros a b c. apply triple_le_trans.
  - induction l as [|t l IH]; simpl; [constructor|].
    now apply insert_sorted_ordered.
Qed.

Lemma sorted_by_center (l : list triple) :
  StronglySorted (fun a b => center a <= center b) (sorted l).
Proof.
  pose proof (sorted_ordered l) as H.
  induction H as [|a s Hs IH Hall]; constructor; [assumption|].
  eapply Forall_impl; [|exact Hall]. intros b. apply triple_le_center.
Qed.

Lemma sorted_example :
  sorted [(20, 0.5, 1); (10, 1, 1)] = [(10, 1, 1); (20, 0.5, 1)].
Proof.
  assert (E : triple_ltb (10, 1, 1) (20, 0.5, 1) = true).
  { apply triple_ltb_spec. unfold triple_lt. lra. }
  unfold sorted. cbn [fold_right insert_sorted]. now rewrite E.
Qed.

(** ** The order of the peaks *)

Lemma gen_peaks_perm (xs : vec) (p q : list R) (gp gq : list triple) :
  group_three p = Ok gp -> group_three q = Ok gq -> Permutation gp gq ->
  gen_peaks xs p = gen_peaks xs q.
Proof.
  intros Hp Hq Hperm.
  rewrite (gen_peaks_grouped xs p Hp), (gen_peaks_grouped xs q Hq).
  apply f_equal. apply map_ext. intros x. now apply peak_sum_perm.
Qed.

(** C10. For flat peak parameter lists p and q made of the same triples in
    another order, gen_peaks returns the same vector, and so does
    gen_power_vals for the same state of the random source; in particular
    the sorted triples kept in the parameter record give the spectrum that
    was generated from the list as it was supplied. *)
Theorem gen_peaks_order_independent (AF : ApFuncs) (xs : vec)
    (p q : list R) (gp gq : list triple) :
  group_three p = Ok gp -> group_three q = Ok gq -> Permutation gp gq ->
  gen_peaks xs p = Ok (map (peak_sum gp) xs) /\
  gen_peaks xs q = gen_peaks xs p /\
  (forall ap_params noise_level st,
     gen_power_vals xs ap_params q noise_level st
     = gen_power_vals xs ap_params p noise_level st) /\
  (forall ap_params noise_level st,
     gen_power_vals xs ap_params (ungroup (sorted gp)) noise_level st
     = gen_power_vals xs ap_params p noise_level st).
Proof.
  intros Hp Hq Hperm.
  assert (Hqp : gen_peaks xs q = gen_peaks xs p).
  { symmetry. now apply (gen_peaks_perm xs p q Hp Hq). }
  assert (Hsp : gen_peaks xs (ungroup (sorted gp)) = gen_peaks xs p).
  { apply (gen_peaks_perm xs _ _ (group_three_ungroup (sorted gp)) Hp).
    apply sorted_perm. }
  split; [now apply gen_peaks_grouped|]. split; [exact Hqp|].
  split; intros ap_params noise_level st; unfold gen_power_vals.
  - now rewrite Hqp.
  - now rewrite Hsp.
Qed.

Lemma gen_peaks_order_independent_witness :
  gen_peaks [8; 10] [20; 0.5; 1; 10; 1; 1]
  = Ok (map (peak_sum [(20, 0.5, 1); (10, 1, 1)]) [8; 10]) /\
  gen_peaks [8; 10] [10; 1; 1; 20; 0.5; 1]
  = gen_peaks [8; 10] [20; 0.5; 1; 10; 1; 1] /\
  (forall ap_params noise_level st,
     gen_power_vals (AF := log_funcs) [8; 10] ap_params
       [10; 1; 1; 20; 0.5; 1] noise_level st
     = gen_power_vals (AF := log_funcs) [8; 10] ap_params
         [20; 0.5; 1; 10; 1; 1] noise_level st) /\
  (forall ap_params noise_level st,
     gen_power_vals (AF := log_funcs) [8; 10] ap_params
       (ungroup (sorted [(20, 0.5, 1); (10, 1, 1)])) noise_level st
     = gen_power_vals (AF := log_funcs) [8; 10] ap_params
         [20; 0.5; 1; 10; 1; 1] noise_level st).
Proof.
  apply (@gen_peaks_order_independent log_funcs [8; 10]
           [20; 0.5; 1; 10; 1; 1] [10; 1; 1; 20; 0.5; 1]
           [(20, 0.5, 1); (10, 1, 1)] [(10, 1, 1); (20, 0.5, 1)]).
  - reflexivity.
  - reflexivity.
  - apply perm_swap.
Defined.

(** ** gen_power_spectrum *)

Lemma gen_freqs_1_50 : gen_freqs (1, 50) 0.5 = Ok (ramp 1 0.5 99).
Proof.
  unfold gen_freqs. simpl fst. simpl snd. rewrite arange_ok by lra.
  replace ((50 + 0.5 - 1) / 0.5) with (IZR 99) by lra.
  now rewrite Rceil_IZR.
Qed.

(** C5. gen_power_spectrum([1, 50], [0, 2], [10, 1, 1], nlv=0,
    freq_res=0.5) returns 99 frequencies, from 1 to 50 in steps of 0.5, and
    as many power values, all of them strictly positive. *)
Theorem gen_power_spectrum_example (AF : ApFuncs) (st : rng_state) :
  exists xs ys st',
    gen_power_spectrum (1, 50) [0; 2] (FlatParams [10; 1; 1])
      (Some 0) (Some 0.5) st = Ok (xs, ys, st') /\
    length xs = 99%nat /\
    (forall i, (i < 99)%nat -> nth i xs 0 = 1 + INR i * 0.5) /\
    hd_error xs = Some 1 /\ last xs 0 = 50 /\
    length ys = 99%nat /\
    Forall (fun y => 0 < y) ys.
Proof.
  destruct (@gen_power_vals_ok AF (ramp 1 0.5 99) [0; 2] [10; 1; 1] 0 st)
    as [ys [st' [Hv [Lys Hpos]]]].
  { well_formed_item. }
  exists (ramp 1 0.5 99), ys, st'.
  split.
  { unfold gen_power_spectrum. simpl or_default. simpl check_flat.
    rewrite gen_freqs_1_50. cbn [bind]. rewrite Hv. reflexivity. }
  split; [apply ramp_length|].
  split; [intros i Hi; now apply ramp_nth|].
  split; [simpl; f_equal; lra|].
  split.
  { rewrite (ramp_last 1 0.5 98 0).
    replace (INR 98) with 98; [lra|].
    change 98%nat with (Z.to_nat 98). rewrite INR_IZR_INZ, Z2Nat.id by lia.
    reflexivity. }
  split; [|exact Hpos].
  now rewrite Lys, ramp_length.
Qed.

(** ** The loop of gen_group_power_spectra *)

Lemma copy_eq (A : Type) (l : list A) : copy l = l.
Proof. unfold copy. apply map_id. Qed.

Lemma set_item_ok (A : Type) (l : list A) (i : nat) (v : A) :
  (i < length l)%nat ->
  exists l', set_item l i v = Ok l' /\ length l' = length l /\
             nth_error l' i = Some v /\
             forall j, j <> i -> nth_error l' j = nth_error l j.
Proof.
  revert i. induction l as [|a l IH]; intros i Hi; simpl in Hi; [lia|].
  destruct i as [|i].
  - exists (v :: l). repeat split. intros [|j] Hj; [lia | reflexivity].
  - destruct (IH i) as [l' [E [L [N O]]]]; [lia|].
    exists (a :: l'). simpl. rewrite E. simpl. repeat split.
    + now rewrite L.
    + exact N.
    + intros [|j] Hj; [reflexivity | apply O; lia].
Qed.

Lemma yields_S (A : Type) (m : nat) (it : iterator A) :
  yields (S m) it
  = match next it with
    | Some (a, it') => a :: yields m it'
    | None => []
    end.
Proof. reflexivity. Qed.

Lemma yields_length (A : Type) (m : nat) (it : iterator A) :
  (length (yields m it) <= m)%nat.
Proof.
  revert it. induction m as [|m IH]; intros it; simpl; [lia|].
  destruct (next it) as [[a it']|]; simpl; [|lia].
  specialize (IH it'). lia.
Qed.

Lemma yields_repeat (A : Type) (m k : nat) (v : A) :
  yields m (RepeatIter v k) = repeat v (Nat.min m k).
Proof.
  revert k. induction m as [|m IH]; intros [|k]; simpl; try reflexivity.
  now rewrite IH.
Qed.

Lemma yields_list (A : Type) (m : nat) (l : list A) :
  yields m (ListIter l) = firstn m l.
Proof.
  revert l. induction m as [|m IH]; intros [|a l]; simpl; try reflexivity.
  now rewrite IH.
Qed.

Lemma completed_S (m : nat) (ap gp : iterator (list R)) (nl : iterator R)
    (a g : list R) (l : R) (ap' gp' : iterator (list R)) (nl' : iterator R) :
  next ap = Some (a, ap') -> next gp = Some (g, gp') ->
  next nl = Some (l, nl') ->
  completed (S m) ap gp nl = S (completed m ap' gp' nl') /\
  yields (S m) ap = a :: yields m ap' /\
  yields (S m) gp = g :: yields m gp' /\
  yields (S m) nl = l :: yields m nl'.
Proof.
  intros Ea Eg El. unfold completed. rewrite !yields_S, Ea, Eg, El.
  repeat split.
Qed.

Lemma completed_stop (m : nat) (ap gp : iterator (list R)) (nl : iterator R) :
  next ap = None \/ next gp = None \/ next nl = None ->
  completed (S m) ap gp nl = O.
Proof.
  unfold completed. rewrite !yields_S.
  intros [E|[E|E]]; rewrite E; simpl.
  - reflexivity.
  - apply Nat.min_0_r.
  - rewrite Nat.min_0_r. apply Nat.min_0_r.
Qed.

Lemma completed_full (n : nat) (ap gp : iterator (list R)) (nl : iterator R) :
  length (yields n ap) = n -> length (yields n gp) = n ->
  length (yields n nl) = n -> completed n ap gp nl = n.
Proof. intros Ha Hg Hl. unfold completed. lia. Qed.

(** The loop on the indices i, ..., i + m - 1: it fails on no well-formed
    input, writes the entries of the spectra it completes, and leaves every
    other entry as it was. *)
Lemma synthesize_spec (AF : ApFuncs) (xs : vec) (m : nat) :
  forall (i : nat) (ap gp : iterator (list R)) (nl : iterator R)
         (ys : list vec) (sp : list (option SynParams)) (st : rng_state),
    length sp = (i + m)%nat -> length ys = (i + m)%nat ->
    (forall j, (j < completed m ap gp nl)%nat ->
       well_formed (nth j (yields m ap) []) (nth j (yields m gp) [])
                   (nth j (yields m nl) 0)) ->
    exists ys' sp' st',
      synthesize xs (seq i m) ap gp nl ys sp st = Ok (ys', sp', st') /\
      length sp' = (i + m)%nat /\ length ys' = (i + m)%nat /\
      (forall j, (j < i)%nat ->
         nth_error sp' j = nth_error sp j /\
         nth_error ys' j = nth_error ys j) /\
      (forall j, (j < completed m ap gp nl)%nat ->
         generated xs (nth j (yields m ap) []) (nth j (yields m gp) [])
           (nth j (yields m nl) 0)
           (nth_error sp' (i + j)) (nth_error ys' (i + j))) /\
      (forall j, (completed m ap gp nl <= j < m)%nat ->
         nth_error sp' (i + j) = nth_error sp (i + j) /\
         nth_error ys' (i + j) = nth_error ys (i + j)).
Proof.
  induction m as [|m IH]; intros i ap gp nl ys sp st Lsp Lys Hwf.
  - exists ys, sp, st. simpl. repeat split; intros; try lia.
    unfold completed in *. simpl in *. lia.
  - assert (Hstop : completed (S m) ap gp nl = O ->
              synthesize xs (seq i (S m)) ap gp nl ys sp st
              = Ok (ys, sp, st) ->
              exists ys' sp' st',
                synthesize xs (seq i (S m)) ap gp nl ys sp st
                = Ok (ys', sp', st') /\
                length sp' = (i + S m)%nat /\ length ys' = (i + S m)%nat /\
                (forall j, (j < i)%nat ->
                   nth_error sp' j = nth_error sp j /\
                   nth_error ys' j = nth_error ys j) /\
                (forall j, (j < completed (S m) ap gp nl)%nat ->
                   generated xs (nth j (yields (S m) ap) [])
                     (nth j (yields (S m) gp) [])
                     (nth j (yields (S m) nl) 0)
                     (nth_error sp' (i + j)) (nth_error ys' (i + j))) /\
                (forall j, (completed (S m) ap gp nl <= j < S m)%nat ->
                   nth_error sp' (i + j) = nth_error sp (i + j) /\
                   nth_error ys' (i + j) = nth_error ys (i + j))).
    { intros HK E. exists ys, sp, st. rewrite HK.
      repeat split; try assumption; intros; lia. }
    change (seq i (S m)) with (i :: seq (S i) m) in *.
    cbn [synthesize] in *.
    destruct (next ap) as [[a ap']|] eqn:Ea;
      [|apply Hstop; [apply completed_stop; auto | reflexivity]].
    destruct (next gp) as [[g gp']|] eqn:Eg;
      [|apply Hstop; [apply completed_stop; auto | reflexivity]].
    destruct (next nl) as [[l nl']|] eqn:El;
      [|apply Hstop; [apply completed_stop; auto | reflexivity]].
    clear Hstop.
    destruct (completed_S m ap gp nl Ea Eg El) as [HK [Ya [Yg Yl]]].
    rewrite HK, Ya, Yg, Yl in *.
    pose proof (Hwf O ltac:(lia)) as Hwf0. simpl nth in Hwf0.
    destruct (group_three_total g (proj1 (proj2 Hwf0))) as [groups Hgr].
    destruct (@set_item_ok _ sp i
                (Some (mk_SynParams (copy a) (sorted groups) l)))
      as [sp1 [Esp [Lsp1 [Nsp Osp]]]]; [lia|].
    destruct (gen_power_vals_ok AF xs st Hwf0) as [row [st1 [Ev [Lrow _]]]].
    destruct (@set_item_ok _ ys i row) as [ys1 [Eys [Lys1 [Nys Oys]]]];
      [lia|].
    destruct (IH (S i) ap' gp' nl' ys1 sp1 st1) as
        [ys' [sp' [st' [E [L1 [L2 [Hold [Hgen Hkeep]]]]]]]].
    { lia. }
    { lia. }
    { intros j Hj. apply (Hwf (S j)). lia. }
    exists ys', sp', st'.
    split.
    { rewrite Hgr. cbn [bind]. rewrite Esp. cbn [bind]. rewrite Ev.
      cbn [bind]. rewrite Eys. cbn [bind]. exact E. }
    split; [lia|]. split; [lia|].
    split.
    { intros j Hj. destruct (Hold j ltac:(lia)) as [H1 H2].
      rewrite H1, H2. split; [apply Osp | apply Oys]; lia. }
    split.
    { intros [|j] Hj.
      - rewrite Nat.add_0_r. destruct (Hold i ltac:(lia)) as [H1 H2].
        simpl nth. exists groups, row, st.
        split; [exact Hgr|].
        split; [now rewrite H1, Nsp, copy_eq|].
        split; [now rewrite H2, Nys|].
        split; [exact Lrow|].
        now rewrite Ev.
      - replace (i + S j)%nat with (S i + j)%nat by lia.
        simpl nth. apply Hgen. lia. }
    { intros [|j] Hj; [lia|].
      replace (i + S j)%nat with (S i + j)%nat by lia.
      destruct (Hkeep j ltac:(lia)) as [H1 H2]. rewrite H1, H2.
      split; [apply Osp | apply Oys]; lia. }
Qed.

Lemma nth_error_repeat_lt (A : Type) (v : A) (n j : nat) :
  (j < n)%nat -> nth_error (repeat v n) j = Some v.
Proof.
  revert j. induction n as [|n IH]; intros [|j] Hj; simpl; try lia;
    [reflexivity | apply IH; lia].
Qed.

Lemma nth_repeat_lt (A : Type) (v d : A) (n j : nat) :
  (j < n)%nat -> nth j (repeat v n) d = v.
Proof.
  revert j. induction n as [|n IH]; intros [|j] Hj; simpl; try lia;
    [reflexivity | apply IH; lia].
Qed.

(** gen_group_power_spectra on a resolution that is not zero and sources
    whose items are well formed: it returns, the spectra it completed are
    generated from the items of the same index, and the other entries are
    None and rows of zeros. *)
Lemma gen_group_power_spectra_spec (AF : ApFuncs) (n_spectra : nat)
    (freq_range : R * R) (ap_src gp_src : param_source (list R))
    (nlv_src : option (param_source R)) (freq_res : option R)
    (st : rng_state) :
  let ap_it := check_iter ap_src n_spectra in
  let gp_it := check_iter gp_src n_spectra in
  let nlv_it :=
    check_iter (or_default nlv_src (Single default_nlv)) n_spectra in
  let done := completed n_spectra ap_it gp_it nlv_it in
  or_default freq_res default_freq_res <> 0 ->
  (forall j, (j < done)%nat ->
     well_formed (nth j (yields n_spectra ap_it) [])
                 (nth j (yields n_spectra gp_it) [])
                 (nth j (yields n_spectra nlv_it) 0)) ->
  exists xs ys syn_params st',
    gen_freqs freq_range (or_default freq_res default_freq_res) = Ok xs /\
    gen_group_power_spectra n_spectra freq_range ap_src gp_src nlv_src
      freq_res st = Ok (xs, ys, syn_params, st') /\
    length syn_params = n_spectra /\ length ys = n_spectra /\
    (forall j, (j < done)%nat ->
       generated xs (nth j (yields n_spectra ap_it) [])
         (nth j (yields n_spectra gp_it) [])
         (nth j (yields n_spectra nlv_it) 0)
         (nth_error syn_params j) (nth_error ys j)) /\
    (forall j, (done <= j < n_spectra)%nat ->
       nth_error syn_params j = Some None /\
       nth_error ys j = Some (zeros (length xs))).
Proof.
  intros ap_it gp_it nlv_it done Hres Hwf.
  destruct (gen_freqs_ok freq_range Hres) as [xs Hxs].
  destruct (@synthesize_spec AF xs n_spectra O ap_it gp_it nlv_it
              (repeat (zeros (length xs)) n_spectra)
              (repeat None n_spectra) st)
    as [ys [sp [st' [E [L1 [L2 [_ [Hgen Hkeep]]]]]]]].
  { now rewrite repeat_length. }
  { now rewrite repeat_length. }
  { exact Hwf. }
  exists xs, ys, sp, st'.
  split; [exact Hxs|].
  split.
  { unfold gen_group_power_spectra. rewrite Hxs. cbn [bind].
    fold ap_it gp_it nlv_it. rewrite E. reflexivity. }
  split; [exact L1|]. split; [exact L2|].
  split.
  { intros j Hj. apply (Hgen j Hj). }
  { intros j Hj. destruct (Hkeep j Hj) as [H1 H2]. simpl in H1, H2.
    rewrite H1, H2. split; apply nth_error_repeat_lt; lia. }
Qed.

Lemma generated_record (AF : ApFuncs) (xs : vec) (a g : list R) (l : R)
    (rec : option (option SynParams)) (row : option vec) :
  generated xs a g l rec row ->
  exists groups,
    group_three g = Ok groups /\
    rec = Some (Some (mk_SynParams a (sorted groups) l)).
Proof. intros [groups [r [st [Hg [Hrec _]]]]]. now exists groups. Qed.

Lemma yields_single (A : Type) (n : nat) (v : A) :
  yields n (check_iter (Single v) n) = repeat v n.
Proof. simpl. now rewrite yields_repeat, Nat.min_id. Qed.

Lemma yields_sequence (A : Type) (n : nat) (l : list A) :
  length l = n -> yields n (check_iter (Sequence l) n) = l.
Proof. intros <-. simpl. rewrite yields_list. apply firstn_all. Qed.

(** ** Exhausted sources *)

(** C1, as the code behaves, on an input: the aperiodic parameters come
    from a generator that yields one item, two spectra are asked for, and
    the call returns, with one record and one entry left None. *)
Lemma short_generator_returns :
  (length (yields 2 (check_iter (one_shot [0; 2]%R) 2)) < 2)%nat /\
  (exists xs ys st',
     gen_group_power_spectra (AF := log_funcs) 2 (1, 2) (one_shot [0; 2])
       (Single [10; 1; 1]) (Some (Single 0)) (Some 1) (const_rng 0)
     = Ok (xs, ys, [Some (mk_SynParams [0; 2] [(10, 1, 1)] 0); None], st')) /\
  gen_group_power_spectra (AF := log_funcs) 2 (1, 2) (one_shot [0; 2])
    (Single [10; 1; 1]) (Some (Single 0)) (Some 1) (const_rng 0)
  <> Err InsufficientParametersError.
Proof.
  split; [simpl; lia|].
  destruct (@gen_group_power_spectra_spec log_funcs 2 (1, 2)
              (one_shot [0; 2]) (Single [10; 1; 1]) (Some (Single 0))
              (Some 1) (const_rng 0))
    as [xs [ys [sp [st' [_ [E [L1 [_ [Hgen Hnone]]]]]]]]].
  { simpl. lra. }
  { intros [|j] Hj.
    - well_formed_item.
    - unfold completed in Hj. simpl in Hj. lia. }
  assert (Hsp : sp = [Some (mk_SynParams [0; 2] [(10, 1, 1)] 0); None]).
  { pose proof (Hgen O ltac:(unfold completed; simpl; lia)) as Hg0.
    apply generated_record in Hg0. destruct Hg0 as [groups [Hg H0]].
    simpl in Hg. inversion Hg; subst groups. simpl in H0.
    destruct (Hnone 1%nat ltac:(unfold completed; simpl; lia)) as [H1 _].
    destruct sp as [|r0 [|r1 [|r2 sp]]]; try discriminate.
    simpl in H0, H1. now inversion H0; inversion H1. }
  subst sp. split.
  - exists xs, ys, st'. exact E.
  - rewrite E. discriminate.
Qed.

(** C1, amended. When one of the three normalized sources yields fewer
    than n_spectra items, the resolution is not zero and the items taken
    are well formed, gen_group_power_spectra raises nothing: it returns
    after the spectra that every source had an item for, each recorded from
    the items of its own index, and the entries of syn_params after them
    are None and the rows of ys after them are zeros. *)
Theorem short_source_stops_early (AF : ApFuncs) (n_spectra : nat)
    (freq_range : R * R) (ap_src gp_src : param_source (list R))
    (nlv_src : option (param_source R)) (freq_res : option R)
    (st : rng_state) :
  let ap_it := check_iter ap_src n_spectra in
  let gp_it := check_iter gp_src n_spectra in
  let nlv_it :=
    check_iter (or_default nlv_src (Single default_nlv)) n_spectra in
  let done := completed n_spectra ap_it gp_it nlv_it in
  (length (yields n_spectra ap_it) < n_spectra)%nat \/
  (length (yields n_spectra gp_it) < n_spectra)%nat \/
  (length (yields n_spectra nlv_it) < n_spectra)%nat ->
  or_default freq_res default_freq_res <> 0 ->
  (forall j, (j < done)%nat ->
     well_formed (nth j (yields n_spectra ap_it) [])
                 (nth j (yields n_spectra gp_it) [])
                 (nth j (yields n_spectra nlv_it) 0)) ->
  (done < n_spectra)%nat /\
  exists xs ys syn_params st',
    gen_group_power_spectra n_spectra freq_range ap_src gp_src nlv_src
      freq_res st = Ok (xs, ys, syn_params, st') /\
    length syn_params = n_spectra /\ length ys = n_spectra /\
    (forall j, (j < done)%nat ->
       generated xs (nth j (yields n_spectra ap_it) [])
         (nth j (yields n_spectra gp_it) [])
         (nth j (yields n_spectra nlv_it) 0)
         (nth_error syn_params j) (nth_error ys j)) /\
    (forall j, (done <= j < n_spectra)%nat ->
       nth_error syn_params j = Some None /\
       nth_error ys j = Some (zeros (length xs))).
Proof.
  intros ap_it gp_it nlv_it done Hshort Hres Hwf.
  split.
  - unfold done, completed. lia.
  - destruct (@gen_group_power_spectra_spec AF n_spectra freq_range ap_src
                gp_src nlv_src freq_res st Hres Hwf)
      as [xs [ys [sp [st' [_ H]]]]].
    exists xs, ys, sp, st'. exact H.
Qed.

Lemma short_source_stops_early_witness :
  exists xs ys syn_params st',
    gen_group_power_spectra (AF := log_funcs) 2 (1, 2) (one_shot [0; 2])
      (Single [10; 1; 1]) (Some (Single 0)) (Some 1) (const_rng 0)
    = Ok (xs, ys, syn_params, st') /\
    length syn_params = 2%nat /\
    nth_error syn_params 1 = Some None /\
    nth_error ys 1 = Some (zeros (length xs)).
Proof.
  destruct (@short_source_stops_early log_funcs 2 (1, 2) (one_shot [0; 2])
              (Single [10; 1; 1]) (Some (Single 0)) (Some 1) (const_rng 0))
    as [_ [xs [ys [sp [st' [E [L1 [_ [_ Hnone]]]]]]]]].
  - left. simpl. lia.
  - simpl. lra.
  - intros [|j] Hj.
    + well_formed_item.
    + unfold completed in Hj. simpl in Hj. lia.
  - exists xs, ys, sp, st'. split; [exact E|]. split; [exact L1|].
    apply Hnone. unfold completed. simpl. lia.
Defined.

(** ** The parameter records *)

(** C2. For every positive n, gen_group_power_spectra(n, [1, 50], [0, 2],
    [10, 1, 1]) returns n parameter records, each with the aperiodic
    parameters [0, 2] and the peak parameters [(10, 1, 1)]; and with a list
    of n aperiodic parameter sets, record i holds element i of the list. *)
Theorem batch_parameter_fidelity (AF : ApFuncs) (n : nat) (st : rng_state) :
  (0 < n)%nat ->
  (exists xs ys syn_params st',
     gen_group_power_spectra n (1, 50) (Single [0; 2]) (Single [10; 1; 1])
       None None st = Ok (xs, ys, syn_params, st') /\
     length ys = n /\
     syn_params = repeat (Some (mk_SynParams [0; 2] [(10, 1, 1)] 0.005)) n) /\
  (forall (items : list (list R)) (gp_src : param_source (list R))
          (nlv_src : option (param_source R)) (freq_range : R * R)
          (freq_res : option R),
     length items = n ->
     length (yields n (check_iter gp_src n)) = n ->
     length (yields n (check_iter (or_default nlv_src (Single default_nlv))
                         n)) = n ->
     or_default freq_res default_freq_res <> 0 ->
     (forall i, (i < n)%nat ->
        well_formed
          (nth i items [])
          (nth i (yields n (check_iter gp_src n)) [])
          (nth i (yields n (check_iter
                              (or_default nlv_src (Single default_nlv)) n))
               0)) ->
     exists xs ys syn_params st',
       gen_group_power_spectra n freq_range (Sequence items) gp_src nlv_src
         freq_res st = Ok (xs, ys, syn_params, st') /\
       length syn_params = n /\
       forall i, (i < n)%nat ->
         exists rec, nth_error syn_params i = Some (Some rec) /\
                     aperiodic_params rec = nth i items []).
Proof.
  intros Hn. split.
  - assert (Hdone : completed n (check_iter (Single [0; 2]) n)
                      (check_iter (Single [10; 1; 1]) n)
                      (check_iter (or_default None (Single default_nlv)) n)
                    = n).
    { apply completed_full; simpl or_default; rewrite yields_single;
        apply repeat_length. }
    destruct (@gen_group_power_spectra_spec AF n (1, 50) (Single [0; 2])
                (Single [10; 1; 1]) None None st)
      as [xs [ys [sp [st' [_ [E [L1 [L2 [Hgen _]]]]]]]]].
    { simpl. unfold default_freq_res. lra. }
    { intros j Hj. rewrite Hdone in Hj. simpl or_default.
      rewrite (yields_single n [0; 2]), (yields_single n [10; 1; 1]),
        (yields_single n default_nlv).
      rewrite !nth_repeat_lt by assumption.
      split; [left; reflexivity | split; [reflexivity|]].
      unfold default_nlv. lra. }
    exists xs, ys, sp, st'.
    split; [exact E|]. split; [exact L2|].
    apply nth_error_ext. intros j.
    destruct (Nat.lt_ge_cases j n) as [Hj|Hj].
    + rewrite nth_error_repeat_lt by assumption.
      pose proof (Hgen j ltac:(rewrite Hdone; exact Hj)) as Hg.
      apply generated_record in Hg. destruct Hg as [groups [Hg Hrec]].
      simpl or_default in Hrec.
      rewrite (yields_single n [10; 1; 1]) in Hg.
      rewrite (yields_single n [0; 2]), (yields_single n default_nlv) in Hrec.
      rewrite nth_repeat_lt in Hg by assumption.
      rewrite !nth_repeat_lt in Hrec by assumption.
      simpl in Hg. inversion Hg; subst groups. exact Hrec.
    + transitivity (@None (option SynParams)); [|symmetry];
        apply nth_error_None; [|rewrite repeat_length]; lia.
  - intros items gp_src nlv_src freq_range freq_res Li Lg Ll Hres Hwf.
    assert (Hdone : completed n (check_iter (Sequence items) n)
                      (check_iter gp_src n)
                      (check_iter (or_default nlv_src (Single default_nlv))
                         n) = n).
    { apply completed_full; try assumption.
      now rewrite yields_sequence. }
    destruct (@gen_group_power_spectra_spec AF n freq_range (Sequence items)
                gp_src nlv_src freq_res st)
      as [xs [ys [sp [st' [_ [E [L1 [L2 [Hgen _]]]]]]]]].
    { exact Hres. }
    { intros j Hj. rewrite Hdone in Hj.
      rewrite yields_sequence by assumption. now apply Hwf. }
    exists xs, ys, sp, st'.
    split; [exact E|]. split; [exact L1|].
    intros i Hi.
    pose proof (Hgen i ltac:(rewrite Hdone; exact Hi)) as Hg.
    apply generated_record in Hg. destruct Hg as [groups [Hg Hrec]].
    rewrite yields_sequence in Hrec by assumption.
    eexists. split; [exact Hrec|]. reflexivity.
Qed.

Lemma batch_parameter_fidelity_witness :
  (exists xs ys syn_params st',
     gen_group_power_spectra (AF := log_funcs) 2 (1, 50) (Single [0; 2])
       (Single [10; 1; 1]) None None (const_rng 0)
     = Ok (xs, ys, syn_params, st') /\
     length ys = 2%nat /\
     syn_params = repeat (Some (mk_SynParams [0; 2] [(10, 1, 1)] 0.005)) 2) /\
  (exists xs ys syn_params st',
     gen_group_power_spectra (AF := log_funcs) 2 (1, 50)
       (Sequence [[0; 1]; [0; 1; 2]]) (Single [10; 1; 1]) None None
       (const_rng 0)
     = Ok (xs, ys, syn_params, st') /\
     length syn_params = 2%nat /\
     forall i, (i < 2)%nat ->
       exists rec, nth_error syn_params i = Some (Some rec) /\
                   aperiodic_params rec = nth i [[0; 1]; [0; 1; 2]] []).
Proof.
  destruct (@batch_parameter_fidelity log_funcs 2 (const_rng 0)
              ltac:(lia)) as [H1 H2].
  split; [exact H1|].
  apply (H2 [[0; 1]; [0; 1; 2]] (Single [10; 1; 1]) None (1, 50) None).
  - reflexivity.
  - reflexivity.
  - reflexivity.
  - simpl. unfold default_freq_res. lra.
  - intros [|[|i]] Hi; try lia; simpl.
    + well_formed_item.
    + well_formed_item.
Defined.

(** C3. The record of every spectrum that gen_group_power_spectra
    generates holds the aperiodic parameters used, the peak parameters used
    grouped into 3-tuples and sorted ascending (by center frequency first),
    and the noise level used; peak parameters [20, 0.5, 1, 10, 1, 1] are
    recorded as [(10, 1, 1), (20, 0.5, 1)]. *)
Theorem syn_params_record (AF : ApFuncs) (n_spectra : nat)
    (freq_range : R * R) (ap_src gp_src : param_source (list R))
    (nlv_src : option (param_source R)) (freq_res : option R)
    (st : rng_state) :
  let ap_it := check_iter ap_src n_spectra in
  let gp_it := check_iter gp_src n_spectra in
  let nlv_it :=
    check_iter (or_default nlv_src (Single default_nlv)) n_spectra in
  let done := completed n_spectra ap_it gp_it nlv_it in
  or_default freq_res default_freq_res <> 0 ->
  (forall j, (j < done)%nat ->
     well_formed (nth j (yields n_spectra ap_it) [])
                 (nth j (yields n_spectra gp_it) [])
                 (nth j (yields n_spectra nlv_it) 0)) ->
  exists xs ys syn_params st',
    gen_group_power_spectra n_spectra freq_range ap_src gp_src nlv_src
      freq_res st = Ok (xs, ys, syn_params, st') /\
    forall j, (j < done)%nat ->
      exists rec groups,
        nth_error syn_params j = Some (Some rec) /\
        aperiodic_params rec = nth j (yields n_spectra ap_it) [] /\
        group_three (nth j (yields n_spectra gp_it) []) = Ok groups /\
        gaussian_params rec = sorted groups /\
        Permutation (gaussian_params rec) groups /\
        StronglySorted triple_le (gaussian_params rec) /\
        StronglySorted (fun a b => center a <= center b)
          (gaussian_params rec) /\
        nlv rec = nth j (yields n_spectra nlv_it) 0 /\
        (nth j (yields n_spectra gp_it) [] = [20; 0.5; 1; 10; 1; 1] ->
         gaussian_params rec = [(10, 1, 1); (20, 0.5, 1)]).
Proof.
  intros ap_it gp_it nlv_it done Hres Hwf.
  destruct (@gen_group_power_spectra_spec AF n_spectra freq_range ap_src
              gp_src nlv_src freq_res st Hres Hwf)
    as [xs [ys [sp [st' [_ [E [_ [_ [Hgen _]]]]]]]]].
  exists xs, ys, sp, st'. split; [exact E|].
  intros j Hj. pose proof (Hgen j Hj) as Hg.
  apply generated_record in Hg. destruct Hg as [groups [Hg Hrec]].
  eexists. exists groups. split; [exact Hrec|]. simpl.
  split; [reflexivity|]. split; [exact Hg|]. split; [reflexivity|].
  split; [apply sorted_perm|]. split; [apply sorted_ordered|].
  split; [apply sorted_by_center|]. split; [reflexivity|].
  intros Heq. fold gp_it in Hg. rewrite Heq in Hg. simpl in Hg.
  inversion Hg. apply sorted_example.
Qed.

Lemma syn_params_record_witness :
  exists xs ys syn_params st',
    gen_group_power_spectra (AF := log_funcs) 1 (1, 50) (Single [0; 2])
      (Single [20; 0.5; 1; 10; 1; 1]) None None (const_rng 0)
    = Ok (xs, ys, syn_params, st') /\
    exists rec,
      nth_error syn_params 0 = Some (Some rec) /\
      aperiodic_params rec = [0; 2] /\
      gaussian_params rec = [(10, 1, 1); (20, 0.5, 1)] /\
      nlv rec = 0.005.
Proof.
  destruct (@syn_params_record log_funcs 1 (1, 50) (Single [0; 2])
              (Single [20; 0.5; 1; 10; 1; 1]) None None (const_rng 0))
    as [xs [ys [sp [st' [E H]]]]].
  - simpl. unfold default_freq_res. lra.
  - intros [|j] Hj.
    + well_formed_item.
    + unfold completed in Hj. simpl in Hj. lia.
  - exists xs, ys, sp, st'. split; [exact E|].
    destruct (H O) as [rec [groups [H1 [H2 [_ [_ [_ [_ [_ [H3 H4]]]]]]]]]].
    + unfold completed. simpl. lia.
    + exists rec. split; [exact H1|]. split; [exact H2|].
      split; [apply H4; reflexivity | exact H3].
Defined.

(** * Further properties of the code *)

(** ** gen_freqs on a reversed range *)




(** ** gen_power_vals: when it fails, and the spectrum without peaks *)

Lemma mod3_step (A : Type) (a b c : A) (l : list A) :
  (length (a :: b :: c :: l) mod 3 = length l mod 3)%nat.
Proof.
  simpl length.
  replace (S (S (S (length l)))) with (length l + 1 * 3)%nat by lia.
  apply Nat.Div0.mod_add.
Qed.

Lemma group_three_leftover_error (params : list R) :
  (length params mod 3 <> 0)%nat ->
  group_three params = Err InvalidParameterError.
Proof.
  induction params as [| |a b|a b c l IH] using list_ind3; intros H;
    try reflexivity.
  - now contradiction H.
  - rewrite mod3_step in H. simpl. now rewrite IH.
Qed.

Lemma gaussian_loop_leftover_error (xs : vec) (params : list R) (ys : vec) :
  (length params mod 3 <> 0)%nat ->
  gaussian_loop xs params ys = Err InvalidParameterError.
Proof.
  revert ys.
  induction params as [| |a b|a b c l IH] using list_ind3; intros ys H;
    try reflexivity.
  - now contradiction H.
  - rewrite mod3_step in H. simpl. now apply IH.
Qed.

Lemma gen_aperiodic_bad_length (AF : ApFuncs) (xs : vec) (params : list R) :
  ~ (length params = 2%nat \/ length params = 3%nat) ->
  gen_aperiodic xs params None = Err InvalidParameterError.
Proof.
  intros H. unfold gen_aperiodic, infer_ap_func. simpl given_mode.
  destruct params as [|a [|b [|c [|d l]]]]; simpl in *;
    try reflexivity; exfalso; apply H; auto.
Qed.

Lemma well_formed_dec (ap_params gauss_params : list R) (noise_level : R) :
  well_formed ap_params gauss_params noise_level \/
  ~ (length ap_params = 2%nat \/ length ap_params = 3%nat) \/
  ((length ap_params = 2%nat \/ length ap_params = 3%nat) /\
   (length gauss_params mod 3 <> 0)%nat) \/
  ((length ap_params = 2%nat \/ length ap_params = 3%nat) /\
   (length gauss_params mod 3 = 0)%nat /\ noise_level < 0).
Proof.
  unfold well_formed.
  assert (Hap : (length ap_params = 2%nat \/ length ap_params = 3%nat) \/
                ~ (length ap_params = 2%nat \/ length ap_params = 3%nat)).
  { destruct (Nat.eq_dec (length ap_params) 2) as [H2|H2]; [auto|].
    destruct (Nat.eq_dec (length ap_params) 3) as [H3|H3]; [auto|].
    right. intros [H|H]; contradiction. }
  destruct Hap as [Hap|Hap]; [|auto].
  destruct (Nat.eq_dec (length gauss_params mod 3) 0) as [Hg|Hg]; [|auto].
  destruct (Rlt_dec noise_level 0) as [Hl|Hl].
  - right. right. right. auto.
  - left. repeat split; try assumption. lra.
Qed.

(** The three ways gen_power_vals fails, in the order the code meets
    them. *)
Lemma gen_power_vals_errors (AF : ApFuncs) (xs : vec)
    (ap_params gauss_params : list R) (noise_level : R) (st : rng_state) :
  (~ (length ap_params = 2%nat \/ length ap_params = 3%nat) ->
   gen_power_vals xs ap_params gauss_params noise_level st
   = Err InvalidParameterError) /\
  (length ap_params = 2%nat \/ length ap_params = 3%nat ->
   (length gauss_params mod 3 <> 0)%nat ->
   gen_power_vals xs ap_params gauss_params noise_level st
   = Err InvalidParameterError) /\
  (length ap_params = 2%nat \/ length ap_params = 3%nat ->
   (length gauss_params mod 3 = 0)%nat -> noise_level < 0 ->
   gen_power_vals xs ap_params gauss_params noise_level st = Err ValueError).
Proof.
  split; [|split].
  - intros H. unfold gen_power_vals.
    now rewrite gen_aperiodic_bad_length.
  - intros Hap Hgp. unfold gen_power_vals.
    destruct (gen_aperiodic_valid AF xs ap_params Hap) as [f Hf].
    rewrite Hf. cbn [bind]. unfold gen_peaks, gaussian_function.
    now rewrite gaussian_loop_leftover_error.
  - intros Hap Hgp Hl. unfold gen_power_vals.
    destruct (gen_aperiodic_valid AF xs ap_params Hap) as [f Hf].
    destruct (group_three_total gauss_params Hgp) as [g Hg].
    rewrite Hf, (gen_peaks_grouped xs gauss_params Hg). cbn [bind].
    unfold normal. destruct (Rlt_dec noise_level 0); [reflexivity | lra].
Qed.

Lemma gen_power_vals_Ok_inv (AF : ApFuncs) (xs : vec)
    (ap_params gauss_params : list R) (noise_level : R) (st : rng_state)
    (r : vec * rng_state) :
  gen_power_vals xs ap_params gauss_params noise_level st = Ok r ->
  well_formed ap_params gauss_params noise_level.
Proof.
  intros E.
  destruct (gen_power_vals_errors AF xs ap_params gauss_params noise_level st)
    as [E1 [E2 E3]].
  destruct (well_formed_dec ap_params gauss_params noise_level)
    as [H|[H|[[Ha Hg]|[Ha [Hg Hl]]]]].
  - exact H.
  - rewrite E1 in E by assumption. discriminate.
  - rewrite E2 in E by assumption. discriminate.
  - rewrite E3 in E by assumption. discriminate.
Qed.

(** X4. gen_power_vals returns exactly when the aperiodic parameters are 2
    or 3, the peak parameters are a multiple of three and the noise level
    is not negative.  Otherwise it raises, and the first failure decides:
    a wrong number of aperiodic parameters and then a wrong number of peak
    parameters are InvalidParameterError, a negative noise level is the
    ValueError of the random source. *)
Theorem gen_power_vals_succeeds_iff (AF : ApFuncs) (xs : vec)
    (ap_params gauss_params : list R) (noise_level : R) (st : rng_state) :
  (well_formed ap_params gauss_params noise_level <->
   exists r, gen_power_vals xs ap_params gauss_params noise_level st = Ok r) /\
  (~ (length ap_params = 2%nat \/ length ap_params = 3%nat) ->
   gen_power_vals xs ap_params gauss_params noise_level st
   = Err InvalidParameterError) /\
  (length ap_params = 2%nat \/ length ap_params = 3%nat ->
   (length gauss_params mod 3 <> 0)%nat ->
   gen_power_vals xs ap_params gauss_params noise_level st
   = Err InvalidParameterError) /\
  (length ap_params = 2%nat \/ length ap_params = 3%nat ->
   (length gauss_params mod 3 = 0)%nat -> noise_level < 0 ->
   gen_power_vals xs ap_params gauss_params noise_level st = Err ValueError).
Proof.
  split; [|apply gen_power_vals_errors].
  split.
  - intros H. destruct (gen_power_vals_ok AF xs st H) as [row [st' [E _]]].
    now exists (row, st').
  - intros [r E]. eapply gen_power_vals_Ok_inv. exact E.
Qed.

Lemma gen_power_vals_succeeds_iff_witness :
  (exists r, gen_power_vals (AF := log_funcs) [1; 2] [0; 2] [10; 1; 1] 0.005
               (const_rng 1) = Ok r) /\
  gen_power_vals (AF := log_funcs) [1; 2] [0] [10; 1] (-1) (const_rng 1)
  = Err InvalidParameterError /\
  gen_power_vals (AF := log_funcs) [1; 2] [0; 2] [10; 1] (-1) (const_rng 1)
  = Err InvalidParameterError /\
  gen_power_vals (AF := log_funcs) [1; 2] [0; 2] [10; 1; 1] (-1) (const_rng 1)
  = Err ValueError.
Proof.
  split; [|split; [|split]].
  - apply (proj1 (@gen_power_vals_succeeds_iff log_funcs [1; 2] [0; 2]
                    [10; 1; 1] 0.005 (const_rng 1))).
    well_formed_item.
  - apply (proj1 (proj2 (@gen_power_vals_succeeds_iff log_funcs [1; 2] [0]
                           [10; 1] (-1) (const_rng 1)))).
    simpl. intros [H|H]; discriminate.
  - apply (proj1 (proj2 (proj2 (@gen_power_vals_succeeds_iff log_funcs
                                  [1; 2] [0; 2] [10; 1] (-1)
                                  (const_rng 1))))).
    + left. reflexivity.
    + simpl. lia.
  - apply (proj2 (proj2 (proj2 (@gen_power_vals_succeeds_iff log_funcs
                                  [1; 2] [0; 2] [10; 1; 1] (-1)
                                  (const_rng 1))))).
    + left. reflexivity.
    + reflexivity.
    + lra.
Defined.

Lemma Ok_inj (A : Type) (a b : A) : Ok a = Ok b -> a = b.
Proof. now inversion 1. Qed.

Lemma vadd_zero_draws (v : vec) (d : nat -> R) (t a : nat) :
  vadd v (map (fun i => 0 + 0 * d (t + i)%nat) (seq a (length v))) = v.
Proof.
  revert a. induction v as [|x v IH]; intros a; simpl; [reflexivity|].
  rewrite IH. f_equal. ring.
Qed.

Lemma vadd_zeros (v : vec) : vadd v (zeros (length v)) = v.
Proof.
  unfold zeros. induction v as [|x v IH]; simpl; [reflexivity|].
  rewrite IH. f_equal. ring.
Qed.

(** X6. With no peak parameters and a noise level of 0, gen_power_vals
    returns 10 to the power of the aperiodic curve of gen_aperiodic, value
    by value, and still takes one variate per frequency from the random
    source. *)
Theorem aperiodic_only_spectrum (AF : ApFuncs) (xs : vec)
    (ap_params : list R) (st : rng_state) :
  length ap_params = 2%nat \/ length ap_params = 3%nat ->
  exists aperiodic,
    gen_aperiodic xs ap_params None = Ok aperiodic /\
    gen_power_vals xs ap_params [] 0 st
    = Ok (power10 aperiodic, advance st (length xs)).
Proof.
  intros Hap.
  destruct (gen_aperiodic_valid AF xs ap_params Hap) as [f Hf].
  exists (map f xs). split; [exact Hf|].
  unfold gen_power_vals. rewrite Hf. cbn [bind].
  unfold gen_peaks, gaussian_function. cbn [gaussian_loop bind].
  rewrite normal_ok by lra. cbn [bind]. unfold scaled_draws.
  replace (length xs) with (length (map f xs)) at 1 2
    by apply length_map.
  rewrite vadd_zeros, vadd_zero_draws. reflexivity.
Qed.

Lemma aperiodic_only_spectrum_witness :
  exists aperiodic,
    gen_aperiodic (AF := log_funcs) [1; 2] [0; 2] None = Ok aperiodic /\
    gen_power_vals (AF := log_funcs) [1; 2] [0; 2] [] 0 (const_rng 1)
    = Ok (power10 aperiodic, advance (const_rng 1) 2).
Proof.
  apply (@aperiodic_only_spectrum log_funcs [1; 2] [0; 2] (const_rng 1)).
  left. reflexivity.
Defined.

(** ** gen_group_power_spectra: the random source, failures and shapes *)

Lemma advance_0 (st : rng_state) : advance st 0 = st.
Proof. destruct st as [d t]. unfold advance. simpl. now rewrite Nat.add_0_r. Qed.

Lemma advance_advance (st : rng_state) (a b : nat) :
  advance (advance st a) b = advance st (a + b).
Proof. unfold advance. simpl. now rewrite Nat.add_assoc. Qed.

Lemma gen_power_vals_advance (AF : ApFuncs) (xs : vec)
    (ap_params gauss_params : list R) (noise_level : R) (st : rng_state) :
  well_formed ap_params gauss_params noise_level ->
  exists row,
    gen_power_vals xs ap_params gauss_params noise_level st
    = Ok (row, advance st (length xs)) /\
    length row = length xs /\ Forall (fun y => 0 < y) row.
Proof.
  intros Hwf.
  destruct (gen_power_vals_valid AF xs st Hwf)
    as [ap [pk [_ [_ [La [Lp Hv]]]]]].
  eexists. split; [exact Hv|].
  split; [|apply power10_positive].
  pose proof (scaled_draws_length 0 noise_level (length xs) st) as Ln.
  unfold power10. rewrite length_map.
  rewrite vadd_length; rewrite vadd_length; congruence.
Qed.

(** The loop threads the random source: the spectrum of index j is
    generated in the state reached after j spectra. *)
Lemma synthesize_rows (AF : ApFuncs) (xs : vec) (m : nat) :
  forall (i : nat) (ap gp : iterator (list R)) (nl : iterator R)
         (ys : list vec) (sp : list (option SynParams)) (st : rng_state),
    length sp = (i + m)%nat -> length ys = (i + m)%nat ->
    (forall j, (j < completed m ap gp nl)%nat ->
       well_formed (nth j (yields m ap) []) (nth j (yields m gp) [])
                   (nth j (yields m nl) 0)) ->
    exists ys' sp',
      synthesize xs (seq i m) ap gp nl ys sp st
      = Ok (ys', sp', advance st (completed m ap gp nl * length xs)) /\
      forall j, (j < completed m ap gp nl)%nat ->
        exists row,
          nth_error ys' (i + j) = Some row /\
          gen_power_vals xs (nth j (yields m ap) []) (nth j (yields m gp) [])
            (nth j (yields m nl) 0) (advance st (j * length xs))
          = Ok (row, advance st (S j * length xs)) /\
          Forall (fun y => 0 < y) row.
Proof.
  induction m as [|m IH]; intros i ap gp nl ys sp st Lsp Lys Hwf.
  - exists ys, sp. split.
    + simpl. unfold completed. simpl. now rewrite advance_0.
    + intros j Hj. unfold completed in Hj. simpl in Hj. lia.
  - assert (Hstop : completed (S m) ap gp nl = O ->
              synthesize xs (seq i (S m)) ap gp nl ys sp st
              = Ok (ys, sp, st) ->
              exists ys' sp',
                synthesize xs (seq i (S m)) ap gp nl ys sp st
                = Ok (ys', sp',
                      advance st (completed (S m) ap gp nl * length xs)) /\
                forall j, (j < completed (S m) ap gp nl)%nat ->
                  exists row,
                    nth_error ys' (i + j) = Some row /\
                    gen_power_vals xs (nth j (yields (S m) ap) [])
                      (nth j (yields (S m) gp) [])
                      (nth j (yields (S m) nl) 0)
                      (advance st (j * length xs))
                    = Ok (row, advance st (S j * length xs)) /\
                    Forall (fun y => 0 < y) row).
    { intros HK E. exists ys, sp. rewrite HK. split.
      - simpl. now rewrite advance_0.
      - intros j Hj. lia. }
    change (seq i (S m)) with (i :: seq (S i) m) in *.
    cbn [synthesize] in *.
    destruct (next ap) as [[a ap']|] eqn:Ea;
      [|apply Hstop; [apply completed_stop; auto | reflexivity]].
    destruct (next gp) as [[g gp']|] eqn:Eg;
      [|apply Hstop; [apply completed_stop; auto | reflexivity]].
    destruct (next nl) as [[l nl']|] eqn:El;
      [|apply Hstop; [apply completed_stop; auto | reflexivity]].
    clear Hstop.
    destruct (completed_S m ap gp nl Ea Eg El) as [HK [Ya [Yg Yl]]].
    rewrite HK, Ya, Yg, Yl in *.
    pose proof (Hwf O ltac:(lia)) as Hwf0. simpl nth in Hwf0.
    destruct (group_three_total g (proj1 (proj2 Hwf0))) as [groups Hgr].
    destruct (@set_item_ok _ sp i
                (Some (mk_SynParams (copy a) (sorted groups) l)))
      as [sp1 [Esp [Lsp1 _]]]; [lia|].
    destruct (gen_power_vals_advance AF xs st Hwf0)
      as [row [Ev [_ Hpos]]].
    destruct (@set_item_ok _ ys i row) as [ys1 [Eys [Lys1 [Nys _]]]];
      [lia|].
    assert (Hwf' : forall j, (j < completed m ap' gp' nl')%nat ->
              well_formed (nth j (yields m ap') []) (nth j (yields m gp') [])
                          (nth j (yields m nl') 0)).
    { intros j Hj. apply (Hwf (S j)). lia. }
    destruct (IH (S i) ap' gp' nl' ys1 sp1 (advance st (length xs)))
      as [ys' [sp' [E Hrows]]]; [lia | lia | exact Hwf' |].
    destruct (@synthesize_spec AF xs m (S i) ap' gp' nl' ys1 sp1
                (advance st (length xs)))
      as [ys2 [sp2 [st2 [E2 [_ [_ [Hold _]]]]]]]; [lia | lia | exact Hwf' |].
    rewrite E in E2. apply Ok_inj in E2. inversion E2; subst ys2 sp2 st2.
    exists ys', sp'. split.
    { rewrite Hgr. cbn [bind]. rewrite Esp. cbn [bind]. rewrite Ev.
      cbn [bind]. rewrite Eys. cbn [bind]. rewrite E.
      now rewrite advance_advance. }
    intros [|j] Hj.
    + exists row. rewrite Nat.add_0_r.
      destruct (Hold i ltac:(lia)) as [_ H2]. rewrite H2, Nys.
      split; [reflexivity|]. split; [|exact Hpos].
      simpl nth. simpl Nat.mul. rewrite advance_0, Nat.add_0_r. exact Ev.
    + destruct (Hrows j ltac:(lia)) as [r [Hr [Hv Hp]]].
      exists r. replace (i + S j)%nat with (S i + j)%nat by lia.
      split; [exact Hr|]. split; [|exact Hp].
      simpl nth. rewrite !advance_advance in Hv. exact Hv.
Qed.

(** X8. gen_group_power_spectra generates its spectra one after the other
    on one random source: on well-formed items and a resolution that is not
    zero, row j of ys is what gen_power_vals returns for the items of index
    j once j * len(xs) variates have been taken, no value in it is
    negative, and the call leaves the source advanced by len(xs) variates
    for each spectrum it generated. *)
Theorem batch_rows_follow_random_source (AF : ApFuncs) (n_spectra : nat)
    (freq_range : R * R) (ap_src gp_src : param_source (list R))
    (nlv_src : option (param_source R)) (freq_res : option R)
    (st : rng_state) :
  let ap_it := check_iter ap_src n_spectra in
  let gp_it := check_iter gp_src n_spectra in
  let nlv_it :=
    check_iter (or_default nlv_src (Single default_nlv)) n_spectra in
  let done := completed n_spectra ap_it gp_it nlv_it in
  or_default freq_res default_freq_res <> 0 ->
  (forall j, (j < done)%nat ->
     well_formed (nth j (yields n_spectra ap_it) [])
                 (nth j (yields n_spectra gp_it) [])
                 (nth j (yields n_spectra nlv_it) 0)) ->
  exists xs ys syn_params,
    gen_group_power_spectra n_spectra freq_range ap_src gp_src nlv_src
      freq_res st
    = Ok (xs, ys, syn_params, advance st (done * length xs)) /\
    forall j, (j < done)%nat ->
      exists row,
        nth_error ys j = Some row /\
        gen_power_vals xs (nth j (yields n_spectra ap_it) [])
          (nth j (yields n_spectra gp_it) [])
          (nth j (yields n_spectra nlv_it) 0) (advance st (j * length xs))
        = Ok (row, advance st (S j * length xs)) /\
        Forall (fun y => 0 <= y) row.
Proof.
  intros ap_it gp_it nlv_it done Hres Hwf.
  destruct (gen_freqs_ok freq_range Hres) as [xs Hxs].
  destruct (@synthesize_rows AF xs n_spectra O ap_it gp_it nlv_it
              (repeat (zeros (length xs)) n_spectra)
              (repeat None n_spectra) st)
    as [ys [sp [E Hrows]]].
  { now rewrite repeat_length. }
  { now rewrite repeat_length. }
  { exact Hwf. }
  exists xs, ys, sp. split.
  - unfold gen_group_power_spectra. rewrite Hxs. cbn [bind].
    fold ap_it gp_it nlv_it. rewrite E. reflexivity.
  - intros j Hj. destruct (Hrows j Hj) as [row [Hr [Hv Hp]]].
    exists row. split; [exact Hr|]. split; [exact Hv|].
    eapply Forall_impl; [|exact Hp]. intros y Hy. lra.
Qed.

Lemma batch_rows_follow_random_source_witness :
  exists xs ys syn_params row0 row1,
    gen_group_power_spectra (AF := log_funcs) 2 (1, 2) (Single [0; 2])
      (Single [10; 1; 1]) None (Some 1) (const_rng 1)
    = Ok (xs, ys, syn_params, advance (const_rng 1) (2 * length xs)) /\
    nth_error ys 0 = Some row0 /\ nth_error ys 1 = Some row1 /\
    gen_power_vals (AF := log_funcs) xs [0; 2] [10; 1; 1] 0.005
      (advance (const_rng 1) (1 * length xs))
    = Ok (row1, advance (const_rng 1) (2 * length xs)).
Proof.
  destruct (@batch_rows_follow_random_source log_funcs 2 (1, 2)
              (Single [0; 2]) (Single [10; 1; 1]) None (Some 1)
              (const_rng 1)) as [xs [ys [sp [E H]]]].
  - simpl. lra.
  - intros [|[|j]] Hj; try well_formed_item.
    unfold completed in Hj. simpl in Hj. lia.
  - destruct (H 0%nat) as [row0 [H0 _]]; [unfold completed; simpl; lia|].
    destruct (H 1%nat) as [row1 [H1 [V1 _]]]; [unfold completed; simpl; lia|].
    exists xs, ys, sp, row0, row1.
    split; [exact E|]. split; [exact H0|]. split; [exact H1|]. exact V1.
Defined.

(** X9. The shape of the result of gen_group_power_spectra, on well-formed
    items and a resolution that is not zero, also when a source runs out:
    ys has n_spectra rows, each as long as the frequency vector, and
    syn_params has n_spectra entries, of which exactly the first ones, one
    per generated spectrum, are records. *)
Theorem batch_result_shape (AF : ApFuncs) (n_spectra : nat)
    (freq_range : R * R) (ap_src gp_src : param_source (list R))
    (nlv_src : option (param_source R)) (freq_res : option R)
    (st : rng_state) :
  let ap_it := check_iter ap_src n_spectra in
  let gp_it := check_iter gp_src n_spectra in
  let nlv_it :=
    check_iter (or_default nlv_src (Single default_nlv)) n_spectra in
  let done := completed n_spectra ap_it gp_it nlv_it in
  or_default freq_res default_freq_res <> 0 ->
  (forall j, (j < done)%nat ->
     well_formed (nth j (yields n_spectra ap_it) [])
                 (nth j (yields n_spectra gp_it) [])
                 (nth j (yields n_spectra nlv_it) 0)) ->
  exists xs ys syn_params st',
    gen_freqs freq_range (or_default freq_res default_freq_res) = Ok xs /\
    gen_group_power_spectra n_spectra freq_range ap_src gp_src nlv_src
      freq_res st = Ok (xs, ys, syn_params, st') /\
    length ys = n_spectra /\
    Forall (fun row => length row = length xs) ys /\
    length syn_params = n_spectra /\
    forall j, (j < n_spectra)%nat ->
      ((j < done)%nat <-> exists rec, nth_error syn_params j = Some (Some rec)).
Proof.
  intros ap_it gp_it nlv_it done Hres Hwf.
  destruct (@gen_group_power_spectra_spec AF n_spectra freq_range ap_src
              gp_src nlv_src freq_res st Hres Hwf)
    as [xs [ys [sp [st' [Hxs [E [L1 [L2 [Hgen Hnone]]]]]]]]].
  fold ap_it gp_it nlv_it done in Hgen, Hnone.
  exists xs, ys, sp, st'.
  split; [exact Hxs|]. split; [exact E|]. split; [exact L2|].
  split.
  { apply Forall_forall. intros row Hin.
    apply In_nth_error in Hin. destruct Hin as [j Hj].
    assert (Hjn : (j < n_spectra)%nat).
    { rewrite <- L2. apply (proj1 (nth_error_Some ys j)).
      unfold vec in *. congruence. }
    destruct (Nat.lt_ge_cases j done) as [Hd|Hd].
    - destruct (Hgen j Hd) as [groups [r [s [_ [_ [Hr [Lr _]]]]]]].
      unfold vec in *. assert (row = r) by congruence. now subst.
    - destruct (Hnone j (conj Hd Hjn)) as [_ Hz].
      unfold vec in *.
      assert (Hrow : row = zeros (length xs)) by congruence.
      rewrite Hrow. unfold zeros. apply repeat_length. }
  split; [exact L1|].
  intros j Hjn. split.
  - intros Hd. apply Hgen in Hd. apply generated_record in Hd.
    destruct Hd as [groups [_ Hrec]]. eexists. exact Hrec.
  - intros [rec Hrec].
    destruct (Nat.lt_ge_cases j done) as [Hd|Hd]; [exact Hd|].
    destruct (Hnone j (conj Hd Hjn)) as [Hn _].
    rewrite Hrec in Hn. discriminate.
Qed.

Lemma batch_result_shape_witness :
  exists xs ys syn_params st',
    gen_group_power_spectra (AF := log_funcs) 2 (1, 2) (one_shot [0; 2])
      (Single [10; 1; 1]) (Some (Single 0)) (Some 1) (const_rng 0)
    = Ok (xs, ys, syn_params, st') /\
    length ys = 2%nat /\
    Forall (fun row => length row = length xs) ys /\
    length syn_params = 2%nat.
Proof.
  destruct (@batch_result_shape log_funcs 2 (1, 2) (one_shot [0; 2])
              (Single [10; 1; 1]) (Some (Single 0)) (Some 1) (const_rng 0))
    as [xs [ys [sp [st' [_ [E [L1 [F [L2 _]]]]]]]]].
  - simpl. lra.
  - intros [|j] Hj.
    + well_formed_item.
    + unfold completed in Hj. simpl in Hj. lia.
  - exists xs, ys, sp, st'. repeat split; assumption.
Defined.

Lemma group_three_Ok_length (params : list R) (groups : list triple) :
  group_three params = Ok groups -> (length params mod 3 = 0)%nat.
Proof.
  intros H. apply group_three_flat in H. subst params.
  rewrite ungroup_length, Nat.mul_comm. apply Nat.Div0.mod_mul.
Qed.

(** When the loop returns, every item it took was well formed. *)
Lemma synthesize_Ok_inv (AF : ApFuncs) (xs : vec) (m : nat) :
  forall (i : nat) (ap gp : iterator (list R)) (nl : iterator R)
         (ys : list vec) (sp : list (option SynParams)) (st : rng_state)
         (r : list vec * list (option SynParams) * rng_state),
    synthesize xs (seq i m) ap gp nl ys sp st = Ok r ->
    forall j, (j < completed m ap gp nl)%nat ->
      well_formed (nth j (yields m ap) []) (nth j (yields m gp) [])
                  (nth j (yields m nl) 0).
Proof.
  induction m as [|m IH]; intros i ap gp nl ys sp st r E j Hj.
  - unfold completed in Hj. simpl in Hj. lia.
  - change (seq i (S m)) with (i :: seq (S i) m) in E.
    cbn [synthesize] in E.
    destruct (next ap) as [[a ap']|] eqn:Ea;
      [|rewrite completed_stop in Hj by auto; lia].
    destruct (next gp) as [[g gp']|] eqn:Eg;
      [|rewrite completed_stop in Hj by auto; lia].
    destruct (next nl) as [[l nl']|] eqn:El;
      [|rewrite completed_stop in Hj by auto; lia].
    destruct (completed_S m ap gp nl Ea Eg El) as [HK [Ya [Yg Yl]]].
    rewrite HK in Hj. rewrite Ya, Yg, Yl.
    apply bind_Ok_inv in E. destruct E as [groups [Hgr E]].
    apply bind_Ok_inv in E. destruct E as [sp1 [Esp E]].
    apply bind_Ok_inv in E. destruct E as [[row st1] [Ev E]].
    apply bind_Ok_inv in E. destruct E as [ys1 [Eys E]].
    destruct j as [|j].
    + simpl nth. eapply gen_power_vals_Ok_inv. exact Ev.
    + simpl nth. eapply IH; [exact E | lia].
Qed.

(** X10. gen_group_power_spectra has no partial results: with a resolution
    that is not zero it returns exactly when every item it takes from the
    three sources is well formed (2 or 3 aperiodic parameters, peak
    parameters a multiple of three, a noise level that is not negative);
    one ill-formed item among them makes the whole call raise. *)
Theorem batch_succeeds_iff_items_well_formed (AF : ApFuncs) (n_spectra : nat)
    (freq_range : R * R) (ap_src gp_src : param_source (list R))
    (nlv_src : option (param_source R)) (freq_res : option R)
    (st : rng_state) :
  let ap_it := check_iter ap_src n_spectra in
  let gp_it := check_iter gp_src n_spectra in
  let nlv_it :=
    check_iter (or_default nlv_src (Single default_nlv)) n_spectra in
  let done := completed n_spectra ap_it gp_it nlv_it in
  or_default freq_res default_freq_res <> 0 ->
  ((forall j, (j < done)%nat ->
      well_formed (nth j (yields n_spectra ap_it) [])
                  (nth j (yields n_spectra gp_it) [])
                  (nth j (yields n_spectra nlv_it) 0)) <->
   exists r,
     gen_group_power_spectra n_spectra freq_range ap_src gp_src nlv_src
       freq_res st = Ok r).
Proof.
  intros ap_it gp_it nlv_it done Hres. split.
  - intros Hwf.
    destruct (@gen_group_power_spectra_spec AF n_spectra freq_range ap_src
                gp_src nlv_src freq_res st Hres Hwf)
      as [xs [ys [sp [st' [_ [E _]]]]]].
    eexists. exact E.
  - intros [r E]. unfold gen_group_power_spectra in E.
    apply bind_Ok_inv in E. destruct E as [xs [_ E]].
    apply bind_Ok_inv in E. destruct E as [r' [E _]].
    eapply synthesize_Ok_inv. exact E.
Qed.

Lemma batch_succeeds_iff_items_well_formed_witness :
  (exists r,
     gen_group_power_spectra (AF := log_funcs) 2 (1, 2) (Single [0; 2])
       (Single [10; 1; 1]) None (Some 1) (const_rng 1) = Ok r) /\
  ~ (exists r,
       gen_group_power_spectra (AF := log_funcs) 2 (1, 2)
         (Sequence [[0; 2]; [0]]) (Single [10; 1; 1]) None (Some 1)
         (const_rng 1) = Ok r).
Proof.
  split.
  - apply (proj1 (@batch_succeeds_iff_items_well_formed log_funcs 2 (1, 2)
                    (Single [0; 2]) (Single [10; 1; 1]) None (Some 1)
                    (const_rng 1) ltac:(simpl; lra))).
    intros [|[|j]] Hj; try well_formed_item.
    unfold completed in Hj. simpl in Hj. lia.
  - intros H.
    pose proof (proj2 (@batch_succeeds_iff_items_well_formed log_funcs 2
                         (1, 2) (Sequence [[0; 2]; [0]]) (Single [10; 1; 1])
                         None (Some 1) (const_rng 1) ltac:(simpl; lra)) H)
      as Hwf.
    destruct (Hwf 1%nat) as [[Hbad|Hbad] _].
    + unfold completed. simpl. lia.
    + discriminate.
    + discriminate.
Defined.

(** X11. A group of one spectrum is the single spectrum: for well-formed
    parameters and a resolution that is not zero, gen_group_power_spectra
    asked for one spectrum on fixed parameters returns the frequency vector
    and the power values of gen_power_spectrum on the same parameters and
    random source, as the only row, with the record of these parameters,
    and leaves the random source in the same state. *)
Theorem one_spectrum_group_is_gen_power_spectrum (AF : ApFuncs)
    (freq_range : R * R) (ap_params gauss_params : list R)
    (noise_level : R) (freq_res : option R) (st : rng_state) :
  well_formed ap_params gauss_params noise_level ->
  or_default freq_res default_freq_res <> 0 ->
  exists xs ys st' groups,
    gen_power_spectrum freq_range ap_params (FlatParams gauss_params)
      (Some noise_level) freq_res st = Ok (xs, ys, st') /\
    group_three gauss_params = Ok groups /\
    gen_group_power_spectra 1 freq_range (Single ap_params)
      (Single gauss_params) (Some (Single noise_level)) freq_res st
    = Ok (xs, [ys],
          [Some (mk_SynParams ap_params (sorted groups) noise_level)], st').
Proof.
  intros Hwf Hres.
  destruct (gen_freqs_ok freq_range Hres) as [xs Hxs].
  destruct (gen_power_vals_advance AF xs st Hwf) as [row [Ev _]].
  destruct (group_three_total gauss_params (proj1 (proj2 Hwf)))
    as [groups Hgr].
  exists xs, row, (advance st (length xs)), groups.
  split.
  { unfold gen_power_spectrum. rewrite Hxs. cbn [bind].
    simpl check_flat. simpl or_default at 1. rewrite Ev. reflexivity. }
  split; [exact Hgr|].
  unfold gen_group_power_spectra. rewrite Hxs. cbn [bind].
  simpl or_default. simpl check_iter. simpl seq. simpl repeat.
  cbn [synthesize next]. rewrite Hgr. cbn [bind set_item].
  rewrite Ev. cbn [bind set_item]. now rewrite copy_eq.
Qed.

Lemma one_spectrum_group_is_gen_power_spectrum_witness :
  exists xs ys st' groups,
    gen_power_spectrum (AF := log_funcs) (1, 50) [0; 2]
      (FlatParams [10; 1; 1]) (Some 0.005) None (const_rng 1)
    = Ok (xs, ys, st') /\
    group_three [10; 1; 1] = Ok groups /\
    gen_group_power_spectra (AF := log_funcs) 1 (1, 50) (Single [0; 2])
      (Single [10; 1; 1]) (Some (Single 0.005)) None (const_rng 1)
    = Ok (xs, [ys], [Some (mk_SynParams [0; 2] (sorted groups) 0.005)], st').
Proof.
  apply (@one_spectrum_group_is_gen_power_spectrum log_funcs (1, 50) [0; 2]
           [10; 1; 1] 0.005 None (const_rng 1)).
  - well_formed_item.
  - simpl. unfold default_freq_res. lra.
Defined.

(** The loop sees of a source only the items it yields. *)
Lemma synthesize_yields_ext (AF : ApFuncs) (xs : vec) (m : nat) :
  forall (i : nat) (ap ap' gp gp' : iterator (list R)) (nl nl' : iterator R)
         (ys : list vec) (sp : list (option SynParams)) (st : rng_state),
    yields m ap = yields m ap' -> yields m gp = yields m gp' ->
    yields m nl = yields m nl' ->
    synthesize xs (seq i m) ap gp nl ys sp st
    = synthesize xs (seq i m) ap' gp' nl' ys sp st.
Proof.
  induction m as [|m IH]; intros i ap ap' gp gp' nl nl' ys sp st Ha Hg Hl;
    [reflexivity|].
  change (seq i (S m)) with (i :: seq (S i) m). cbn [synthesize].
  rewrite !yields_S in Ha, Hg, Hl.
  destruct (next ap) as [[a ap1]|], (next ap') as [[a' ap1']|];
    try discriminate; [|reflexivity].
  destruct (next gp) as [[g gp1]|], (next gp') as [[g' gp1']|];
    try discriminate; [|reflexivity].
  destruct (next nl) as [[l nl1]|], (next nl') as [[l' nl1']|];
    try discriminate; [|reflexivity].
  inversion Ha; inversion Hg; inversion Hl; subst a' g' l'.
  destruct (group_three g) as [groups|e]; [|reflexivity]. cbn [bind].
  destruct (set_item sp i _) as [sp1|e]; [|reflexivity]. cbn [bind].
  destruct (gen_power_vals xs a g l st) as [[row st1]|e]; [|reflexivity].
  cbn [bind].
  destruct (set_item ys i row) as [ys1|e]; [|reflexivity]. cbn [bind].
  now apply IH.
Qed.

(** X12. gen_group_power_spectra uses of each parameter source only the
    first n_spectra items it yields: two calls whose sources yield the same
    items return the same result (or raise alike), so a fixed value, a list
    that repeats it n_spectra times and a generator that keeps yielding it
    are interchangeable. *)
Theorem batch_depends_on_yielded_items (AF : ApFuncs) (n_spectra : nat)
    (freq_range : R * R) (ap_src ap_src' gp_src gp_src' : param_source (list R))
    (nlv_src nlv_src' : option (param_source R)) (freq_res : option R)
    (st : rng_state) :
  yields n_spectra (check_iter ap_src n_spectra)
  = yields n_spectra (check_iter ap_src' n_spectra) ->
  yields n_spectra (check_iter gp_src n_spectra)
  = yields n_spectra (check_iter gp_src' n_spectra) ->
  yields n_spectra
    (check_iter (or_default nlv_src (Single default_nlv)) n_spectra)
  = yields n_spectra
      (check_iter (or_default nlv_src' (Single default_nlv)) n_spectra) ->
  gen_group_power_spectra n_spectra freq_range ap_src gp_src nlv_src
    freq_res st
  = gen_group_power_spectra n_spectra freq_range ap_src' gp_src' nlv_src'
      freq_res st.
Proof.
  intros Ha Hg Hl. unfold gen_group_power_spectra.
  destruct (gen_freqs freq_range (or_default freq_res default_freq_res))
    as [xs|e]; [|reflexivity].
  cbn [bind].
  now rewrite (@synthesize_yields_ext AF xs n_spectra O _ _ _ _ _ _ _ _ st
                 Ha Hg Hl).
Qed.

Lemma batch_depends_on_yielded_items_witness :
  gen_group_power_spectra (AF := log_funcs) 2 (1, 50) (Single [0; 2])
    (Single [10; 1; 1]) None None (const_rng 1)
  = gen_group_power_spectra (AF := log_funcs) 2 (1, 50)
      (Sequence [[0; 2]; [0; 2]]) (Generator (fun _ => Some [10; 1; 1]))
      (Some (Sequence [0.005; 0.005; 0.005])) None (const_rng 1).
Proof.
  apply (@batch_depends_on_yielded_items log_funcs 2 (1, 50) (Single [0; 2])
           (Sequence [[0; 2]; [0; 2]]) (Single [10; 1; 1])
           (Generator (fun _ => Some [10; 1; 1])) None
           (Some (Sequence [0.005; 0.005; 0.005])) None (const_rng 1));
    reflexivity.
Defined.

(** ** The order of the peaks, in a group of spectra *)

Lemma triple_le_antisym (a b : triple) :
  triple_le a b -> triple_le b a -> a = b.
Proof.
  destruct a as [[a1 a2] a3], b as [[b1 b2] b3].
  unfold triple_le, triple_lt. intros H1 H2.
  assert (E1 : a1 = b1) by lra.
  assert (E2 : a2 = b2) by lra.
  assert (E3 : a3 = b3) by lra.
  now subst.
Qed.

Lemma ordered_perm_unique (l1 l2 : list triple) :
  StronglySorted triple_le l1 -> StronglySorted triple_le l2 ->
  Permutation l1 l2 -> l1 = l2.
Proof.
  intros S1. revert l2.
  induction S1 as [|a l1 S1 IH Ha]; intros l2 S2 P.
  - apply Permutation_nil in P. now subst.
  - destruct l2 as [|b l2].
    { apply Permutation_sym, Permutation_nil in P. discriminate. }
    inversion S2 as [|b' l2' S2' Hb]; subst.
    assert (Eab : a = b).
    { assert (Ia : In a (b :: l2)).
      { eapply Permutation_in; [exact P | now left]. }
      assert (Ib : In b (a :: l1)).
      { eapply Permutation_in; [apply Permutation_sym; exact P | now left]. }
      destruct Ia as [E|Ia]; [now symmetry|].
      destruct Ib as [E|Ib]; [exact E|].
      apply triple_le_antisym.
      - rewrite Forall_forall in Ha. now apply Ha.
      - rewrite Forall_forall in Hb. now apply Hb. }
    subst b. f_equal. apply IH; [assumption|].
    eapply Permutation_cons_inv. exact P.
Qed.

Lemma sorted_canonical (g h : list triple) :
  Permutation g h -> sorted g = sorted h.
Proof.
  intros P. apply ordered_perm_unique; try apply sorted_ordered.
  rewrite (sorted_perm g), (sorted_perm h). exact P.
Qed.

Lemma gen_power_vals_same_peaks (AF : ApFuncs) (xs : vec)
    (ap_params p q : list R) (noise_level : R) (st : rng_state) :
  same_peaks p q ->
  gen_power_vals xs ap_params p noise_level st
  = gen_power_vals xs ap_params q noise_level st.
Proof.
  intros [gp [gq [Hp [Hq P]]]]. unfold gen_power_vals.
  now rewrite (gen_peaks_perm xs p q Hp Hq P).
Qed.

Lemma synthesize_same_peaks (AF : ApFuncs) (xs : vec) (m : nat) :
  forall (i : nat) (ap gp gp' : iterator (list R)) (nl : iterator R)
         (ys : list vec) (sp : list (option SynParams)) (st : rng_state),
    Forall2 same_peaks (yields m gp) (yields m gp') ->
    synthesize xs (seq i m) ap gp nl ys sp st
    = synthesize xs (seq i m) ap gp' nl ys sp st.
Proof.
  induction m as [|m IH]; intros i ap gp gp' nl ys sp st H; [reflexivity|].
  change (seq i (S m)) with (i :: seq (S i) m). cbn [synthesize].
  rewrite !yields_S in H.
  destruct (next ap) as [[a ap1]|]; [|reflexivity].
  destruct (next gp) as [[g gp1]|], (next gp') as [[g' gp1']|];
    try (now inversion H).
  inversion H as [|? ? ? ? Hgg Hrest]; subst.
  destruct (next nl) as [[l nl1]|]; [|reflexivity].
  rewrite (gen_power_vals_same_peaks AF xs a l st Hgg).
  destruct Hgg as [gp0 [gq0 [Hp [Hq P]]]].
  rewrite Hp, Hq. cbn [bind]. rewrite (sorted_canonical P).
  destruct (set_item sp i _) as [sp1|e]; [|reflexivity]. cbn [bind].
  destruct (gen_power_vals xs a g' l st) as [[row st1]|e]; [|reflexivity].
  cbn [bind].
  destruct (set_item ys i row) as [ys1|e]; [|reflexivity]. cbn [bind].
  now apply IH.
Qed.

(** X13. The order in which the peaks of a spectrum are given does not
    show in the result of gen_group_power_spectra: when the peak
    parameters that two calls take for each spectrum are made of the same
    triples, the calls return the same frequencies, the same power values
    and the same parameter records, the records holding the triples in
    sorted order. *)
Theorem batch_ignores_peak_order (AF : ApFuncs) (n_spectra : nat)
    (freq_range : R * R) (ap_src gp_src gp_src' : param_source (list R))
    (nlv_src : option (param_source R)) (freq_res : option R)
    (st : rng_state) :
  Forall2 same_peaks (yields n_spectra (check_iter gp_src n_spectra))
                     (yields n_spectra (check_iter gp_src' n_spectra)) ->
  gen_group_power_spectra n_spectra freq_range ap_src gp_src nlv_src
    freq_res st
  = gen_group_power_spectra n_spectra freq_range ap_src gp_src' nlv_src
      freq_res st.
Proof.
  intros H. unfold gen_group_power_spectra.
  destruct (gen_freqs freq_range (or_default freq_res default_freq_res))
    as [xs|e]; [|reflexivity].
  cbn [bind].
  now rewrite (@synthesize_same_peaks AF xs n_spectra O _ _ _ _ _ _ st H).
Qed.

Lemma batch_ignores_peak_order_witness :
  gen_group_power_spectra (AF := log_funcs) 2 (1, 50) (Single [0; 2])
    (Single [20; 0.5; 1; 10; 1; 1]) None None (const_rng 1)
  = gen_group_power_spectra (AF := log_funcs) 2 (1, 50) (Single [0; 2])
      (Single [10; 1; 1; 20; 0.5; 1]) None None (const_rng 1).
Proof.
  apply (@batch_ignores_peak_order log_funcs 2 (1, 50) (Single [0; 2])
           (Single [20; 0.5; 1; 10; 1; 1]) (Single [10; 1; 1; 20; 0.5; 1])
           None None (const_rng 1)).
  assert (Hsame : same_peaks [20; 0.5; 1; 10; 1; 1] [10; 1; 1; 20; 0.5; 1]).
  { exists [(20, 0.5, 1); (10, 1, 1)], [(10, 1, 1); (20, 0.5, 1)].
    split; [reflexivity|]. split; [reflexivity|]. apply perm_swap. }
  simpl. repeat constructor; exact Hsame.
Defined.

(** ** gen_power_spectrum *)

(** X14. With a resolution that is not zero, gen_power_spectrum returns
    exactly when the parameters are well formed, the peak parameters being
    counted after flattening; it then returns the frequencies of gen_freqs
    with one power value for each, none of them negative, and has taken
    one variate per frequency from the random source. *)
Theorem gen_power_spectrum_succeeds_iff (AF : ApFuncs) (freq_range : R * R)
    (ap_params : list R) (gauss_params : gauss_input)
    (noise_level freq_res : option R) (st : rng_state) :
  or_default freq_res default_freq_res <> 0 ->
  (well_formed ap_params (check_flat gauss_params)
     (or_default noise_level default_nlv) <->
   exists r,
     gen_power_spectrum freq_range ap_params gauss_params noise_level
       freq_res st = Ok r) /\
  (well_formed ap_params (check_flat gauss_params)
     (or_default noise_level default_nlv) ->
   exists xs ys,
     gen_freqs freq_range (or_default freq_res default_freq_res) = Ok xs /\
     gen_power_spectrum freq_range ap_params gauss_params noise_level
       freq_res st = Ok (xs, ys, advance st (length xs)) /\
     length ys = length xs /\ Forall (fun y => 0 <= y) ys).
Proof.
  intros Hres.
  destruct (gen_freqs_ok freq_range Hres) as [xs Hxs].
  assert (Hok : well_formed ap_params (check_flat gauss_params)
                  (or_default noise_level default_nlv) ->
                exists xs ys,
                  gen_freqs freq_range (or_default freq_res default_freq_res)
                  = Ok xs /\
                  gen_power_spectrum freq_range ap_params gauss_params
                    noise_level freq_res st
                  = Ok (xs, ys, advance st (length xs)) /\
                  length ys = length xs /\ Forall (fun y => 0 <= y) ys).
  { intros Hwf.
    destruct (gen_power_vals_advance AF xs st Hwf) as [row [Ev [Lr Hp]]].
    exists xs, row. split; [exact Hxs|].
    split; [|split; [assumption|]].
    - unfold gen_power_spectrum. rewrite Hxs. cbn [bind]. now rewrite Ev.
    - eapply Forall_impl; [|exact Hp]. intros y Hy. lra. }
  split; [|exact Hok]. split.
  - intros Hwf. destruct (Hok Hwf) as [xs' [ys [_ [E _]]]]. eexists. exact E.
  - intros [r E]. unfold gen_power_spectrum in E. rewrite Hxs in E.
    cbn [bind] in E. apply bind_Ok_inv in E. destruct E as [r' [E _]].
    eapply gen_power_vals_Ok_inv. exact E.
Qed.

Lemma gen_power_spectrum_succeeds_iff_witness :
  (exists xs ys,
     gen_freqs (1, 50) default_freq_res = Ok xs /\
     gen_power_spectrum (AF := log_funcs) (1, 50) [0; 2]
       (GroupedParams [[10; 1; 1]; [20; 0.5; 1]]) None None (const_rng 1)
     = Ok (xs, ys, advance (const_rng 1) (length xs)) /\
     length ys = length xs /\ Forall (fun y => 0 <= y) ys) /\
  ~ (exists r,
       gen_power_spectrum (AF := log_funcs) (1, 50) [0; 2]
         (GroupedParams [[10; 1; 1]; [20; 0.5]]) None None (const_rng 1)
       = Ok r).
Proof.
  assert (Hres : or_default None default_freq_res <> 0).
  { simpl. unfold default_freq_res. lra. }
  split.
  - apply (proj2 (@gen_power_spectrum_succeeds_iff log_funcs (1, 50) [0; 2]
                    (GroupedParams [[10; 1; 1]; [20; 0.5; 1]]) None None
                    (const_rng 1) Hres)).
    well_formed_item.
  - intros H.
    pose proof (proj2 (proj1 (@gen_power_spectrum_succeeds_iff log_funcs
                                (1, 50) [0; 2]
                                (GroupedParams [[10; 1; 1]; [20; 0.5]])
                                None None (const_rng 1) Hres)) H)
      as [_ [Hbad _]].
    simpl in Hbad. discriminate.
Defined.

(** ** gen_aperiodic with an explicit mode *)

(** X15. An explicit mode is taken as it is: gen_aperiodic does not compare
    it with the number of parameters.  With the mode that the parameter
    count would give, the result is the one without a mode; with the other
    mode, or a name that is no mode, the call raises
    InvalidParameterError; the empty string counts as no mode. *)
Theorem gen_aperiodic_explicit_mode (AF : ApFuncs) (xs : vec)
    (params : list R) :
  gen_aperiodic xs params (Some EmptyString) = gen_aperiodic xs params None /\
  (length params = 2%nat ->
   gen_aperiodic xs params (Some "fixed"%string)
   = gen_aperiodic xs params None /\
   gen_aperiodic xs params (Some "knee"%string)
   = Err InvalidParameterError) /\
  (length params = 3%nat ->
   gen_aperiodic xs params (Some "knee"%string)
   = gen_aperiodic xs params None /\
   gen_aperiodic xs params (Some "fixed"%string)
   = Err InvalidParameterError) /\
  (forall mode,
     mode <> EmptyString -> mode <> "fixed"%string -> mode <> "knee"%string ->
     gen_aperiodic xs params (Some mode) = Err InvalidParameterError).
Proof.
  split; [reflexivity|]. split; [|split].
  - intros H. destruct params as [|a [|b [|c l]]]; try discriminate.
    split; reflexivity.
  - intros H. destruct params as [|a [|b [|c [|d l]]]]; try discriminate.
    split; reflexivity.
  - intros mode H0 H1 H2. unfold gen_aperiodic.
    destruct mode as [|ch mode]; [now contradiction H0|].
    cbn [given_mode bind]. unfold get_ap_func.
    destruct (String.eqb_spec (String ch mode) "fixed") as [E|_];
      [contradiction|].
    destruct (String.eqb_spec (String ch mode) "knee") as [E|_];
      [contradiction|].
    reflexivity.
Qed.

Lemma gen_aperiodic_explicit_mode_witness :
  gen_aperiodic (AF := log_funcs) [1; 2] [0; 2] (Some "fixed"%string)
  = gen_aperiodic (AF := log_funcs) [1; 2] [0; 2] None /\
  gen_aperiodic (AF := log_funcs) [1; 2] [0; 2] (Some "knee"%string)
  = Err InvalidParameterError /\
  gen_aperiodic (AF := log_funcs) [1; 2] [0; 1; 2] (Some "fixed"%string)
  = Err InvalidParameterError /\
  gen_aperiodic (AF := log_funcs) [1; 2] [0; 2] (Some "linear"%string)
  = Err InvalidParameterError.
Proof.
  destruct (@gen_aperiodic_explicit_mode log_funcs [1; 2] [0; 2])
    as [_ [H2 [_ Hm]]].
  destruct (@gen_aperiodic_explicit_mode log_funcs [1; 2] [0; 1; 2])
    as [_ [_ [H3 _]]].
  split; [apply H2; reflexivity|].
  split; [apply H2; reflexivity|].
  split; [apply H3; reflexivity|].
  apply Hm; discriminate.
Defined.

(** ** A group of spectra without noise *)

Lemma gen_power_vals_noise_free (AF : ApFuncs) (xs : vec)
    (ap_params gauss_params : list R) :
  well_formed ap_params gauss_params 0 ->
  exists clean,
    forall st, gen_power_vals xs ap_params gauss_params 0 st
               = Ok (clean, advance st (length xs)).
Proof.
  intros [Hap [Hgp _]].
  destruct (gen_aperiodic_valid AF xs ap_params Hap) as [f Hf].
  destruct (group_three_total gauss_params Hgp) as [g Hg].
  pose proof (gen_peaks_grouped xs gauss_params Hg) as Hpk.
  exists (power10 (vadd (vadd (map f xs) (map (peak_sum g) xs))
                     (scaled_draws 0 0 (length xs) (const_rng 0)))).
  intros st. unfold gen_power_vals. rewrite Hf, Hpk. cbn [bind].
  rewrite normal_ok by lra. cbn [bind]. do 4 f_equal.
  unfold scaled_draws. apply map_ext. intros i. simpl. ring.
Qed.

(** X16. Without noise a group on fixed parameters is one spectrum n
    times: with one aperiodic parameter set, one peak parameter list and the
    noise level 0 for all spectra, every row of ys is the vector that
    gen_power_vals returns for these parameters, whatever the state of the
    random source. *)
Theorem noise_free_group_repeats_spectrum (AF : ApFuncs) (n_spectra : nat)
    (freq_range : R * R) (ap_params gauss_params : list R)
    (freq_res : option R) (st : rng_state) :
  well_formed ap_params gauss_params 0 ->
  or_default freq_res default_freq_res <> 0 ->
  exists xs row syn_params st',
    gen_group_power_spectra n_spectra freq_range (Single ap_params)
      (Single gauss_params) (Some (Single 0)) freq_res st
    = Ok (xs, repeat row n_spectra, syn_params, st') /\
    forall st0, power_values (gen_power_vals xs ap_params gauss_params 0 st0)
                = Ok row.
Proof.
  intros Hwf Hres.
  assert (Hdone : completed n_spectra (check_iter (Single ap_params) n_spectra)
                    (check_iter (Single gauss_params) n_spectra)
                    (check_iter (or_default (Some (Single 0))
                                   (Single default_nlv)) n_spectra)
                  = n_spectra).
  { apply completed_full; simpl or_default; rewrite yields_single;
      apply repeat_length. }
  assert (Hitems : forall j, (j < n_spectra)%nat ->
            nth j (yields n_spectra (check_iter (Single ap_params) n_spectra))
              [] = ap_params /\
            nth j (yields n_spectra (check_iter (Single gauss_params)
                                       n_spectra)) [] = gauss_params /\
            nth j (yields n_spectra
                     (check_iter (or_default (Some (Single 0))
                                    (Single default_nlv)) n_spectra)) 0 = 0).
  { intros j Hj. simpl or_default.
    rewrite (yields_single n_spectra ap_params),
      (yields_single n_spectra gauss_params), (yields_single n_spectra 0).
    rewrite !nth_repeat_lt by assumption. repeat split. }
  set (ap_it := check_iter (Single ap_params) n_spectra) in *.
  set (gp_it := check_iter (Single gauss_params) n_spectra) in *.
  set (nl_it := check_iter (or_default (Some (Single 0)) (Single default_nlv))
                  n_spectra) in *.
  assert (Hwfs : forall j, (j < completed n_spectra ap_it gp_it nl_it)%nat ->
            well_formed (nth j (yields n_spectra ap_it) [])
                        (nth j (yields n_spectra gp_it) [])
                        (nth j (yields n_spectra nl_it) 0)).
  { intros j Hj. rewrite Hdone in Hj.
    destruct (Hitems j Hj) as [-> [-> ->]]. exact Hwf. }
  destruct (gen_freqs_ok freq_range Hres) as [xs Hxs].
  destruct (@synthesize_rows AF xs n_spectra O ap_it gp_it nl_it
              (repeat (zeros (length xs)) n_spectra)
              (repeat None n_spectra) st)
    as [ys [sp [E Hrows]]];
    [now rewrite repeat_length | now rewrite repeat_length | exact Hwfs |].
  destruct (@synthesize_spec AF xs n_spectra O ap_it gp_it nl_it
              (repeat (zeros (length xs)) n_spectra)
              (repeat None n_spectra) st)
    as [ys2 [sp2 [st2 [E2 [_ [L2 _]]]]]];
    [now rewrite repeat_length | now rewrite repeat_length | exact Hwfs |].
  rewrite E in E2. apply Ok_inj in E2. inversion E2; subst ys2 sp2 st2.
  clear E2. simpl in L2.
  destruct (gen_power_vals_noise_free AF xs Hwf) as [clean Hclean].
  exists xs, clean, sp,
    (advance st (completed n_spectra ap_it gp_it nl_it * length xs)).
  split.
  - unfold gen_group_power_spectra. rewrite Hxs. cbn [bind].
    fold ap_it gp_it nl_it. rewrite E. cbn [bind].
    assert (Hys : ys = repeat clean n_spectra); [|now rewrite Hys].
    apply nth_error_ext. intros j.
    destruct (Nat.lt_ge_cases j n_spectra) as [Hj|Hj].
    + rewrite nth_error_repeat_lt by assumption.
      destruct (Hrows j ltac:(rewrite Hdone; exact Hj)) as [row [Hr [Hv _]]].
      destruct (Hitems j Hj) as [Ea [Eg El]].
      rewrite Ea, Eg, El, Hclean in Hv. apply Ok_inj in Hv.
      inversion Hv. subst row. exact Hr.
    + transitivity (@None vec); [|symmetry];
        apply nth_error_None; [|rewrite repeat_length]; lia.
  - intros st0. rewrite Hclean. reflexivity.
Qed.

Lemma noise_free_group_repeats_spectrum_witness :
  exists xs row syn_params st',
    gen_group_power_spectra (AF := log_funcs) 3 (1, 50) (Single [0; 2])
      (Single [10; 1; 1]) (Some (Single 0)) None (const_rng 1)
    = Ok (xs, repeat row 3, syn_params, st') /\
    forall st0,
      power_values (gen_power_vals (AF := log_funcs) xs [0; 2] [10; 1; 1] 0
                      st0) = Ok row.
Proof.
  apply (@noise_free_group_repeats_spectrum log_funcs 3 (1, 50) [0; 2]
           [10; 1; 1] None (const_rng 1)).
  - well_formed_item.
  - simpl. unfold default_freq_res. lra.
Defined.
